(** * nudge: the history-replaying proxy emitter

    A shallow embedding of [src/lib/makeProxyEmitter.js] together with the
    parts of its environment it relies on: the primitive JavaScript values
    that can sit in a listener's [lastEventId] property, [parseInt(_, 10)],
    [Number.isFinite], array reads and writes by index, and the listener
    table of Node's [EventEmitter] with its [newListener] notification.

    JavaScript strings are modelled as [string] (one [ascii] per code unit
    below 256), JavaScript numbers that hold integers as [Z] or [nat]. *)

From Stdlib Require Import ZArith Lia Ascii.
From stdpp Require Import gmap strings list pretty.

(** ** Primitive values and strings *)

Module JS.

(** The primitive values a property or an event argument may hold.
    [JNumber z] is an integer-valued number. *)
Inductive jsval :=
  | JUndefined
  | JNull
  | JBool (b : bool)
  | JNumber (z : Z)
  | JString (s : string).

(** The line feed written ['\n'] in the source. *)
Definition LF : string := String "010"%char EmptyString.

(** The double quote character, as a one-character string. *)
Definition DQUOTE : string := String "034"%char EmptyString.

(** [ToString] of the language specification, on primitives. Integers are
    rendered in decimal, as JavaScript does below 10^21. *)
Definition ToString (v : jsval) : string :=
  match v with
  | JUndefined => "undefined"
  | JNull => "null"
  | JBool true => "true"
  | JBool false => "false"
  | JNumber z => pretty z
  | JString s => s
  end.

(** The result of a numeric conversion: not-a-number, an integer, or an
    infinity. [Fin z] stands for the double nearest to [z], which is [z]
    itself whenever [|z| <= 2^53]. *)
Inductive jsnum :=
  | NaN
  | Fin (z : Z)
  | Infinite (negative : bool).

(** White space skipped by [parseInt]: TAB, LF, VT, FF, CR, SP and NBSP. *)
Definition isWhiteSpace (c : ascii) : bool :=
  let n := Ascii.nat_of_ascii c in
  bool_decide (n ∈ [9; 10; 11; 12; 13; 32; 160]).

Fixpoint trimStart (s : string) : string :=
  match s with
  | String c r => if isWhiteSpace c then trimStart r else s
  | EmptyString => EmptyString
  end.

Definition digit_value (c : ascii) : option Z :=
  let n := Ascii.nat_of_ascii c in
  if bool_decide (48 ≤ n ≤ 57) then Some (Z.of_nat n - 48)%Z else None.

(** The values of the longest prefix of decimal digits of [s]. *)
Fixpoint digits_prefix (s : string) : list Z :=
  match s with
  | String c r =>
      match digit_value c with
      | Some d => d :: digits_prefix r
      | None => []
      end
  | EmptyString => []
  end.

Definition mathInt (ds : list Z) : Z :=
  foldl (λ acc d, 10 * acc + d)%Z 0%Z ds.

(** Integers of this magnitude and above round to an infinity when they are
    converted to a double. *)
Definition double_limit : Z := (2 ^ 1024 - 2 ^ 970)%Z.

(** Up to this magnitude every integer is a double, and adding one is
    exact. *)
Definition exact_below : Z := (2 ^ 53)%Z.

(** [parseInt(input, 10)] on a string: skip leading white space, read an
    optional sign, then the longest run of decimal digits; no digit gives
    [NaN]. *)
Definition parseInt10 (input : string) : jsnum :=
  let s := trimStart input in
  let '(negative, s) :=
    match s with
    | String c r =>
        if bool_decide (c = "-"%char) then (true, r)
        else if bool_decide (c = "+"%char) then (false, r)
        else (false, s)
    | EmptyString => (false, s)
    end in
  match digits_prefix s with
  | [] => NaN
  | ds =>
      let m := mathInt ds in
      if (m <? double_limit)%Z
      then Fin (if negative then - m else m)%Z
      else Infinite negative
  end.

(** [Number.isFinite]. *)
Definition isFinite (n : jsnum) : bool :=
  match n with
  | Fin _ => true
  | _ => false
  end.

(** [n + 1] on a number known to be finite. The sum is the exact integer,
    which is what the addition of doubles gives as long as [|z| < 2^53]. *)
Definition succ_finite (n : jsnum) : Z :=
  match n with
  | Fin z => (z + 1)%Z
  | _ => 0%Z
  end.

(** ** Arrays

    An array is the list of its slots; [None] is a hole, which reads as
    [undefined]. *)

(** [a[i]], where [None] is [undefined]. A negative or too large index
    reads [undefined]. *)
Definition array_get {A} (a : list (option A)) (i : Z) : option A :=
  if (i <? 0)%Z then None else mjoin (a !! Z.to_nat i).

(** [a[i] = x] for an index [i >= 0]: overwrite a slot in range, otherwise
    grow the array, leaving holes up to [i]. *)
Definition array_set {A} (a : list (option A)) (i : nat) (x : A)
  : list (option A) :=
  if bool_decide (i < length a)
  then <[i := Some x]> a
  else a ++ replicate (i - length a) None ++ [Some x].

End JS.

Export JS.

(** ** The event handler

    Modelled from the spec: [src/lib/makeHandler.js], which
    [makeProxyEmitter] requires, is missing from the sources; only its
    tests are there. The definitions of this section follow sections 3,
    4.1 and 4.2 of the specification. *)

(** Modelled from the spec: an EventSpec entry is [true] or an object with
    the optional fields [name] and [preProcessor]. A pre-processor gets the
    array of the event's arguments and a continuation; it is represented by
    the value it passes to the continuation, [None] when it does not call
    it. *)
Inductive EventSpec :=
  | SpecTrue
  | SpecObject (name : option string)
               (preProcessor : option (list jsval → option jsval)).

(** Modelled from the spec: primitives serialize to their literal text, a
    string is put between double quotes. *)
Definition serialize (payload : jsval) : string :=
  match payload with
  | JString s => DQUOTE +:+ s +:+ DQUOTE
  | _ => ToString payload
  end.

(** Modelled from the spec: the FrameFormatter of section 4.1. *)
Definition format (eventName : string) (payload : jsval) : string :=
  "event: " +:+ eventName +:+ LF +:+ "data: " +:+ serialize payload
    +:+ LF +:+ LF.

(** Modelled from the spec: the name under which frames are formatted. *)
Definition effective_name (sourceEventName : string) (spec : EventSpec)
  : string :=
  match spec with
  | SpecObject (Some n) _ => n
  | _ => sourceEventName
  end.

(** Modelled from the spec: [makeHandler(sourceEventName, spec, sink)]. The
    handler and the sink act on a state [S] of the caller's choice. *)
Definition makeHandler {S} (sourceEventName : string) (spec : EventSpec)
    (sink : string → S → S) (args : list jsval) : S → S :=
  let name := effective_name sourceEventName spec in
  match spec with
  | SpecObject _ (Some preProcessor) =>
      match preProcessor args with
      | Some v => sink (format name v)
      | None => id
      end
  | _ => sink (format name (default JUndefined (head args)))
  end.

(** ** Listeners and the proxy emitter *)

(** A listener function: its identity [fn], its own [lastEventId] property
    if it has one, and the one it would inherit through its prototype chain
    if there is one. *)
Record listener := Listener {
  fn : nat;
  own_lastEventId : option jsval;
  inherited_lastEventId : option jsval
}.

(** [listener.hasOwnProperty('lastEventId')]. *)
Definition hasOwn_lastEventId (l : listener) : bool :=
  bool_decide (is_Some (own_lastEventId l)).

(** [listener.lastEventId]: the own property, else the inherited one, else
    [undefined]. *)
Definition get_lastEventId (l : listener) : jsval :=
  match own_lastEventId l with
  | Some v => v
  | None => default JUndefined (inherited_lastEventId l)
  end.

(** What the proxy does to the outside: it calls a listener with one
    argument (a stored frame, or [undefined] written [None]), or it
    notifies a listener of the emitter's own [newListener] and
    [removeListener] events. The listeners are the callers' functions; they
    only receive and do not call back into the proxy. *)
Inductive call :=
  | CallData (target : nat) (arg : option string)
  | CallNotify (target : nat) (notification event : string) (subject : nat).

(** The state captured by the closure of [makeProxyEmitter]: the two local
    variables and the listener table of [proxy]. The replay handler is the
    first listener of [newListener] and stays so; the table lists the
    listeners added from outside, in registration order. *)
Record proxy := Proxy {
  messageHistory : list (option string);
  serverCurrentID : nat;
  listeners : gmap string (list nat)
}.

Definition listeners_of (p : proxy) (event : string) : list nat :=
  default [] (listeners p !! event).

(** The state right after [makeProxyEmitter] returns. *)
Definition makeProxyEmitter : proxy := Proxy [] 0 ∅.

(** The [newListener] handler of lines 14 to 30. The loop runs over the
    indices from [startEventId] up to the length of the history; a listener
    only receives, so the history does not change while the loop runs. The
    index is an exact integer here, which a double is from [- exact_below]
    on; a history has fewer than [exact_below] slots. *)
Definition startEventId (l : listener) : Z :=
  if hasOwn_lastEventId l then
    let lastEventId := parseInt10 (ToString (get_lastEventId l)) in
    if isFinite lastEventId then succ_finite lastEventId else 0%Z
  else 0%Z.

(** [for (var id = startEventId; id < messageHistory.length; ++id)
      listener(messageHistory[id]);] *)
Definition replay (history : list (option string)) (l : listener)
  : list call :=
  let start := startEventId l in
  (λ id, CallData (fn l) (array_get history id))
    <$> seqZ start (Z.of_nat (length history) - start).

Definition newListener_handler (p : proxy) (event : string) (l : listener)
  : list call :=
  if bool_decide (event = "data") then replay (messageHistory p) l else [].

(** [proxy.on(event, listener)]: the emitter first emits [newListener] to
    the replay handler and to the other listeners of that event, then
    appends the listener to the table. *)
Definition proxy_on (p : proxy) (event : string) (l : listener)
  : proxy * list call :=
  let calls :=
    newListener_handler p event l
    ++ ((λ t, CallNotify t "newListener" event (fn l))
          <$> listeners_of p "newListener") in
  (Proxy (messageHistory p) (serverCurrentID p)
     (<[event := listeners_of p event ++ [fn l]]> (listeners p)),
   calls).

(** Remove the last occurrence of [f], if there is one. *)
Fixpoint remove_last (f : nat) (fs : list nat) : option (list nat) :=
  match fs with
  | [] => None
  | x :: r =>
      match remove_last f r with
      | Some r' => Some (x :: r')
      | None => if decide (x = f) then Some r else None
      end
  end.

(** [proxy.removeListener(event, f)]: drop the most recent registration of
    [f], then emit [removeListener]; nothing happens when [f] is not
    registered. *)
Definition proxy_removeListener (p : proxy) (event : string) (f : nat)
  : proxy * list call :=
  match remove_last f (listeners_of p event) with
  | None => (p, [])
  | Some fs =>
      let p' := Proxy (messageHistory p) (serverCurrentID p)
                  (<[event := fs]> (listeners p)) in
      (p', (λ t, CallNotify t "removeListener" event f)
             <$> listeners_of p' "removeListener")
  end.

(** [write(string)]: [proxy.emit('data', string)]. *)
Definition write (p : proxy) (s : string) : list call :=
  (λ t, CallData t (Some s)) <$> listeners_of p "data".

(** The frame built on line 40. *)
Definition with_id (id : nat) (s : string) : string :=
  "id: " +:+ pretty id +:+ LF +:+ s.

(** [writeSavingID(string)] of lines 38 to 41. *)
Definition writeSavingID (p : proxy) (s : string) : proxy * list call :=
  let id := serverCurrentID p in
  let p1 := Proxy (messageHistory p) (S id) (listeners p) in
  let frame := with_id id s in
  let p2 := Proxy (array_set (messageHistory p1) id frame)
              (serverCurrentID p1) (listeners p1) in
  (p2, write p2 frame).

(** The sink handed to [makeHandler] on line 44, acting on the proxy and
    the calls made so far. *)
Definition sink (s : string) (pc : proxy * list call) : proxy * list call :=
  let '(p', calls) := writeSavingID pc.1 s in (p', pc.2 ++ calls).

(** [emitter.emit(eventName, ...args)] as far as the handlers attached on
    lines 43 to 47 go: one handler per key of [eventSpecs]. *)
Definition source_emit (eventSpecs : gmap string EventSpec) (p : proxy)
    (eventName : string) (args : list jsval) : proxy * list call :=
  match eventSpecs !! eventName with
  | Some spec => makeHandler eventName spec sink args (p, [])
  | None => (p, [])
  end.

(** ** Runs *)

Inductive op :=
  | On (event : string) (l : listener)
  | RemoveListener (event : string) (f : nat)
  | Commit (s : string)
  | Emit (eventName : string) (args : list jsval).

Definition step (eventSpecs : gmap string EventSpec) (p : proxy) (o : op)
  : proxy * list call :=
  match o with
  | On event l => proxy_on p event l
  | RemoveListener event f => proxy_removeListener p event f
  | Commit s => writeSavingID p s
  | Emit eventName args => source_emit eventSpecs p eventName args
  end.

Fixpoint run (eventSpecs : gmap string EventSpec) (p : proxy) (os : list op)
  : proxy * list call :=
  match os with
  | [] => (p, [])
  | o :: os' =>
      let '(p1, c1) := step eventSpecs p o in
      let '(p2, c2) := run eventSpecs p1 os' in
      (p2, c1 ++ c2)
  end.

(** The arguments with which listener [f] is called with data, in order. *)
Definition frames_to (f : nat) (calls : list call) : list (option string) :=
  omap (λ c, match c with
             | CallData t a => if decide (t = f) then Some a else None
             | CallNotify _ _ _ _ => None
             end) calls.

(** All data calls, whoever receives them. *)
Definition data_calls (calls : list call) : list (nat * option string) :=
  omap (λ c, match c with
             | CallData t a => Some (t, a)
             | CallNotify _ _ _ _ => None
             end) calls.

(** The identifiers read by [serverCurrentID++] over successive commits. *)
Fixpoint assigned_ids (p : proxy) (ss : list string) : list nat :=
  match ss with
  | [] => []
  | s :: ss' => serverCurrentID p :: assigned_ids (writeSavingID p s).1 ss'
  end.

(** The history in which the frames [ss] were committed in this order. *)
Definition history_of (ss : list string) : list (option string) :=
  imap (λ i s, Some (with_id i s)) ss.

(** The strings committed by a run, in order. *)
Definition committed (eventSpecs : gmap string EventSpec) (o : op)
  : list string :=
  match o with
  | Commit s => [s]
  | Emit eventName args =>
      match eventSpecs !! eventName with
      | Some spec => makeHandler eventName spec (λ s acc, acc ++ [s]) args []
      | None => []
      end
  | _ => []
  end.

(** ** Predicates used in the statements *)

(** The history holds the frames of some committed strings, under the
    identifiers [0], [1], ... in this order, and the counter is the next
    identifier. *)
Definition consistent (p : proxy) : Prop :=
  ∃ ss, messageHistory p = history_of ss ∧ serverCurrentID p = length ss.

(** The listener supplies the last-seen identifier [j]; no own property
    stands for [-1], none seen. *)
Definition supplies (l : listener) (j : Z) : Prop :=
  match own_lastEventId l with
  | Some v => parseInt10 (ToString v) = Fin j
  | None => j = (-1)%Z
  end.

(** The operation registers or unregisters the function [f] for [data]. *)
Definition touches (f : nat) (o : op) : bool :=
  match o with
  | On event l => bool_decide (event = "data" ∧ fn l = f)
  | RemoveListener event g => bool_decide (event = "data" ∧ g = f)
  | _ => false
  end.

(** The listener with the same identity and inherited property, without an
    own [lastEventId]. *)
Definition without_lastEventId (l : listener) : listener :=
  Listener (fn l) None (inherited_lastEventId l).

(** Two proxies that differ at most in the registrations of [f]. *)
Definition same_but (f : nat) (p q : proxy) : Prop :=
  messageHistory p = messageHistory q
  ∧ serverCurrentID p = serverCurrentID q
  ∧ ∀ event, filter (λ t, t ≠ f) (listeners_of p event)
             = filter (λ t, t ≠ f) (listeners_of q event).

(** The function [f] is registered for [data] exactly once. *)
Definition registered_once (f : nat) (p : proxy) : Prop :=
  filter (λ t, t = f) (listeners_of p "data") = [f].

(** ** Concrete inputs

    The scenario of the middleware tests: two events on the registered
    name [test], one on another name, then a client connects. *)

Definition example_specs : gmap string EventSpec := {[ "test" := SpecTrue ]}.

Definition example_events : list op :=
  [Emit "test" [JString "someData"];
   Emit "test" [JString "someOtherData"];
   Emit "somethingElse" [JString "blah"]].

Definition example_frames : list string :=
  [format "test" (JString "someData");
   format "test" (JString "someOtherData")].

Definition after_example_events : proxy :=
  (run example_specs makeProxyEmitter example_events).1.

(** A client that has seen the frame with identifier 0. *)
Definition reconnecting : listener := Listener 7 (Some (JString "0")) None.

(** A client whose token is larger than every committed identifier. *)
Definition far_ahead : listener := Listener 8 (Some (JString "5")) None.

(** A client whose token is not a number. *)
Definition garbled : listener := Listener 9 (Some (JString "abc")) None.

(** A listener that only inherits a [lastEventId]. *)
Definition inheriting : listener := Listener 10 None (Some (JString "0")).

(** The pre-processor of the filtering test: it returns without calling
    back when its first argument is [false], and passes its first argument
    on otherwise. *)
Definition drop_false (args : list jsval) : option jsval :=
  match head args with
  | Some (JBool false) => None
  | Some v => Some v
  | None => Some JUndefined
  end.

(** A client whose token has white space before and a fraction after the
    digits. *)
Definition padded : listener := Listener 12 (Some (JString " 1.5")) None.

(** A client whose token is a decimal number too large for a double. *)
Definition oversized : listener :=
  Listener 13 (Some (JString (pretty (2 ^ 1024)%Z))) None.

(** A client whose token is a negative number below [-1]. *)
Definition below_zero : listener := Listener 11 (Some (JString "-3")) None.

(** A client that reconnects after having seen the frames 0, 1 and 2. *)
Definition returning : listener :=
  Listener 14 (Some (JString (pretty 2))) None.

(** ** Completions

    The registration once more, with the one place where it can throw made
    explicit: [parseInt] converts its argument to a string first, and that
    conversion throws a [TypeError] on a symbol. *)

(** The outcome of running a piece of code: it returns a value, or it
    throws. *)
Inductive completion (A : Type) : Type :=
  | Returns (a : A)
  | Throws (error : string).

Arguments Returns {A} a.
Arguments Throws {A} error.

(** What a property may hold when symbols are counted in. *)
Inductive property_value :=
  | Primitive (v : jsval)
  | SymbolValue.

(** [ToString], which throws on a symbol. *)
Definition ToString_completion (x : property_value) : completion string :=
  match x with
  | Primitive v => Returns (ToString v)
  | SymbolValue => Throws "TypeError"
  end.

(** A listener function whose [lastEventId] may also be a symbol. *)
Record function_value := FunctionValue {
  identity : nat;
  own_property : option property_value;
  inherited_property : option property_value
}.

(** The listener as such a function. *)
Definition plain (l : listener) : function_value :=
  FunctionValue (fn l) (Primitive <$> own_lastEventId l)
    (Primitive <$> inherited_lastEventId l).

(** The loop of lines 25 to 28 from a given start. *)
Definition replay_from (history : list (option string)) (f : nat) (start : Z)
  : list call :=
  (λ id, CallData f (array_get history id))
    <$> seqZ start (Z.of_nat (length history) - start).

(** The [newListener] handler of lines 14 to 30, step by step. *)
Definition newListener_completion (p : proxy) (event : string)
    (g : function_value) : completion (list call) :=
  if bool_decide (event = "data") then
    match own_property g with
    | Some x =>
        match ToString_completion x with
        | Returns s =>
            let lastEventId := parseInt10 s in
            let start :=
              if isFinite lastEventId then succ_finite lastEventId else 0%Z in
            Returns (replay_from (messageHistory p) (identity g) start)
        | Throws e => Throws e
        end
    | None => Returns (replay_from (messageHistory p) (identity g) 0)
    end
  else Returns [].

(** [proxy.on(event, listener)]: when the replay handler throws, [emit]
    passes the exception on, the other [newListener] listeners are not
    called and the listener is not added. *)
Definition proxy_on_completion (p : proxy) (event : string)
    (g : function_value) : completion (proxy * list call) :=
  match newListener_completion p event g with
  | Returns replayed =>
      Returns
        (Proxy (messageHistory p) (serverCurrentID p)
           (<[event := listeners_of p event ++ [identity g]]> (listeners p)),
         replayed
         ++ ((λ t, CallNotify t "newListener" event (identity g))
               <$> listeners_of p "newListener"))
  | Throws e => Throws e
  end.

(** From this magnitude on a number is printed in exponent form, not with
    all its digits. *)
Definition exponent_from : Z := (10 ^ 21)%Z.

(** The value is one that [ToString] above prints as JavaScript does. *)
Definition prints_in_decimal (v : jsval) : Prop :=
  match v with
  | JNumber z => (Z.abs z < exponent_from)%Z
  | _ => True
  end.

(** * Properties *)

(** ** Arrays and histories *)

Lemma array_set_end {A} (a : list (option A)) (x : A) :
  array_set a (length a) x = a ++ [Some x].
Proof.
  unfold array_set. rewrite bool_decide_eq_false_2 by lia.
  by rewrite Nat.sub_diag.
Qed.

Lemma array_get_nat {A} (a : list (option A)) (i : nat) :
  array_get a (Z.of_nat i) = mjoin (a !! i).
Proof.
  unfold array_get. destruct (Z.ltb_spec (Z.of_nat i) 0); [lia|].
  by rewrite Nat2Z.id.
Qed.

Lemma array_get_app_l {A} (a b : list (option A)) (i : nat) :
  i < length a → array_get (a ++ b) (Z.of_nat i) = array_get a (Z.of_nat i).
Proof. intros. by rewrite !array_get_nat, lookup_app_l. Qed.

(** Reading the slots from [start >= 0] to the end gives the tail. *)
Lemma array_get_range {A} (a : list (option A)) (start : Z) :
  (0 ≤ start)%Z →
  array_get a <$> seqZ start (Z.of_nat (length a) - start)
  = drop (Z.to_nat start) a.
Proof.
  intros Hs. apply list_eq. intros i.
  rewrite list_lookup_fmap, lookup_drop.
  destruct (decide (Z.of_nat i < Z.of_nat (length a) - start)%Z) as [Hi|Hi].
  - rewrite lookup_seqZ_lt by done. simpl.
    replace (start + Z.of_nat i)%Z with (Z.of_nat (Z.to_nat start + i)) by lia.
    rewrite array_get_nat.
    destruct (lookup_lt_is_Some_2 a (Z.to_nat start + i)) as [x Hx]; [lia|].
    by rewrite Hx.
  - rewrite lookup_seqZ_ge by lia. simpl.
    symmetry. apply lookup_ge_None. lia.
Qed.

Lemma history_of_snoc (ss : list string) (s : string) :
  history_of (ss ++ [s]) = history_of ss ++ [Some (with_id (length ss) s)].
Proof.
  unfold history_of. rewrite imap_app. simpl.
  by rewrite Nat.add_0_r.
Qed.

Lemma length_history_of (ss : list string) :
  length (history_of ss) = length ss.
Proof. apply length_imap. Qed.

(** ** The listener table *)

Lemma listeners_of_insert h n ls event fs event' :
  listeners_of (Proxy h n (<[event := fs]> ls)) event'
  = if decide (event = event') then fs else listeners_of (Proxy h n ls) event'.
Proof.
  unfold listeners_of. simpl. rewrite lookup_insert.
  by destruct (decide (event = event')).
Qed.

Lemma remove_last_filter (P : nat → Prop) `{∀ x, Decision (P x)} g fs fs' :
  remove_last g fs = Some fs' → ¬ P g → filter P fs' = filter P fs.
Proof.
  revert fs'. induction fs as [|x r IH]; intros fs' Hr Hg; [done|].
  simpl in Hr. destruct (remove_last g r) as [r'|] eqn:Er.
  - injection Hr as <-. rewrite !filter_cons, (IH r') by done. done.
  - destruct (decide (x = g)) as [->|]; [|done].
    injection Hr as <-. by rewrite filter_cons_False.
Qed.

Lemma remove_last_commutes (f g : nat) (fs : list nat) :
  g ≠ f →
  remove_last g (filter (λ t, t ≠ f) fs)
  = filter (λ t, t ≠ f) <$> remove_last g fs.
Proof.
  intros Hg. induction fs as [|x r IH]; [done|].
  destruct (decide (x = f)) as [->|Hx].
  - rewrite filter_cons_False by tauto. rewrite IH. simpl.
    destruct (remove_last g r) as [r'|]; simpl.
    + by rewrite filter_cons_False by tauto.
    + by rewrite decide_False.
  - rewrite filter_cons_True by done. simpl. rewrite IH.
    destruct (remove_last g r) as [r'|]; simpl.
    + by rewrite filter_cons_True.
    + by destruct (decide (x = g)).
Qed.

(** ** Calls received by one listener *)

Lemma frames_to_app f c1 c2 :
  frames_to f (c1 ++ c2) = frames_to f c1 ++ frames_to f c2.
Proof. apply omap_app. Qed.

Lemma data_calls_app c1 c2 :
  data_calls (c1 ++ c2) = data_calls c1 ++ data_calls c2.
Proof. apply omap_app. Qed.

Lemma frames_to_cons_data f t a r :
  frames_to f (CallData t a :: r)
  = if decide (t = f) then a :: frames_to f r else frames_to f r.
Proof. unfold frames_to. simpl. by destruct (decide (t = f)). Qed.

Lemma frames_to_cons_notify f t n e s r :
  frames_to f (CallNotify t n e s :: r) = frames_to f r.
Proof. done. Qed.

Lemma data_calls_cons_data t a r :
  data_calls (CallData t a :: r) = (t, a) :: data_calls r.
Proof. done. Qed.

Lemma data_calls_cons_notify t n e s r :
  data_calls (CallNotify t n e s :: r) = data_calls r.
Proof. done. Qed.

Lemma frames_to_notify f (g : nat → call) ts :
  (∀ t, ∃ t' n e s, g t = CallNotify t' n e s) → frames_to f (g <$> ts) = [].
Proof.
  intros Hg. induction ts as [|t ts IH]; [done|].
  rewrite fmap_cons. destruct (Hg t) as (t' & n & e & s & ->).
  by rewrite frames_to_cons_notify.
Qed.

Lemma data_calls_notify (g : nat → call) ts :
  (∀ t, ∃ t' n e s, g t = CallNotify t' n e s) → data_calls (g <$> ts) = [].
Proof.
  intros Hg. induction ts as [|t ts IH]; [done|].
  rewrite fmap_cons. destruct (Hg t) as (t' & n & e & s & ->).
  by rewrite data_calls_cons_notify.
Qed.

Lemma data_calls_to f (args : list (option string)) :
  data_calls (CallData f <$> args) = (λ a, (f, a)) <$> args.
Proof.
  induction args as [|a r IH]; [done|].
  by rewrite !fmap_cons, data_calls_cons_data, IH.
Qed.

Lemma frames_to_self f (args : list (option string)) :
  frames_to f (CallData f <$> args) = args.
Proof.
  induction args as [|a r IH]; [done|].
  by rewrite fmap_cons, frames_to_cons_data, decide_True, IH.
Qed.

Lemma frames_to_other f g (args : list (option string)) :
  g ≠ f → frames_to f (CallData g <$> args) = [].
Proof.
  intros. induction args as [|a r IH]; [done|].
  by rewrite fmap_cons, frames_to_cons_data, decide_False, IH.
Qed.

Lemma frames_to_write f p s :
  frames_to f (write p s)
  = (λ _, Some s) <$> filter (λ t, t = f) (listeners_of p "data").
Proof.
  unfold write. induction (listeners_of p "data") as [|t ts IH]; [done|].
  rewrite fmap_cons, frames_to_cons_data, filter_cons, IH.
  by destruct (decide (t = f)).
Qed.

Lemma replay_calls history l :
  replay history l
  = CallData (fn l)
      <$> (array_get history
             <$> seqZ (startEventId l)
                   (Z.of_nat (length history) - startEventId l)).
Proof. unfold replay. by rewrite <- list_fmap_compose. Qed.

(** ** Decimal rendering read back by [parseInt] *)

Lemma digit_value_pretty_N_char (d : N) :
  (d < 10)%N → digit_value (pretty_N_char d) = Some (Z.of_N d).
Proof.
  intros Hd.
  assert (d = 0 ∨ d = 1 ∨ d = 2 ∨ d = 3 ∨ d = 4 ∨ d = 5 ∨ d = 6 ∨ d = 7
          ∨ d = 8 ∨ d = 9)%N as Hcases by lia.
  repeat (destruct Hcases as [->|Hcases]; [done|]). by subst.
Qed.

Lemma mathInt_step (acc : Z) (ds : list Z) (d : Z) :
  foldl (λ acc d, 10 * acc + d)%Z acc (ds ++ [d])
  = (10 * foldl (λ acc d, 10 * acc + d)%Z acc ds + d)%Z.
Proof. by rewrite foldl_app. Qed.

Lemma digits_pretty_N_go (x : N) : ∀ s,
  ∃ ds, digits_prefix (pretty_N_go x s) = ds ++ digits_prefix s
        ∧ (∀ acc, foldl (λ acc d, 10 * acc + d)%Z acc ds
                  = (acc * 10 ^ Z.of_nat (length ds) + Z.of_N x)%Z)
        ∧ String.length (pretty_N_go x s) = length ds + String.length s
        ∧ ((0 < x)%N → ds ≠ []).
Proof.
  induction (N.lt_wf_0 x) as [x _ IH]; intros s.
  destruct (decide (x = 0)%N) as [->|Hx].
  - exists []. rewrite pretty_N_go_0. split; [done|]. split; [|split; [done|lia]].
    intros acc. simpl. lia.
  - rewrite pretty_N_go_step by lia.
    destruct (IH (x `div` 10)%N) with
      (s := String (pretty_N_char (x `mod` 10)) s)
      as (ds & Hds & Hval & Hlen & _).
    { apply N.div_lt; lia. }
    exists (ds ++ [Z.of_N (x `mod` 10)]). split; [|split; [|split]].
    + rewrite Hds. simpl.
      rewrite digit_value_pretty_N_char by (apply N.mod_lt; lia).
      by rewrite <- (assoc_L (++)).
    + intros acc. rewrite mathInt_step, Hval, length_app. simpl.
      rewrite Nat2Z.inj_add, Z.pow_add_r by lia.
      pose proof (N.div_mod x 10 ltac:(lia)) as Hdm.
      rewrite Z.pow_1_r. lia.
    + rewrite Hlen, length_app. simpl. lia.
    + intros _. by destruct ds.
Qed.

(** The decimal rendering of a non-negative integer starts with a digit,
    and its digits read back as that integer. *)
Lemma digits_pretty_N (n : N) :
  digits_prefix (pretty n) ≠ []
  ∧ length (digits_prefix (pretty n)) = String.length (pretty n)
  ∧ mathInt (digits_prefix (pretty n)) = Z.of_N n.
Proof.
  unfold pretty, pretty_N. destruct (decide (n = 0)%N) as [->|Hn]; [done|].
  destruct (digits_pretty_N_go n "") as (ds & Hds & Hval & Hlen & Hne).
  simpl in Hds. rewrite app_nil_r in Hds. rewrite Hds. split; [|split].
  - apply Hne. lia.
  - rewrite Hlen. simpl. lia.
  - unfold mathInt. rewrite Hval. lia.
Qed.

Lemma digits_pretty_nat (n : nat) :
  digits_prefix (pretty n) ≠ []
  ∧ length (digits_prefix (pretty n)) = String.length (pretty n)
  ∧ mathInt (digits_prefix (pretty n)) = Z.of_nat n.
Proof.
  destruct (digits_pretty_N (N.of_nat n)) as (H1 & H2 & H3).
  unfold pretty, pretty_nat. split; [done|]. split; [done|]. rewrite H3. lia.
Qed.

Lemma digit_value_bounds c d :
  digit_value c = Some d → 48 ≤ nat_of_ascii c ≤ 57.
Proof.
  unfold digit_value. intros H.
  destruct (decide (48 ≤ nat_of_ascii c ≤ 57)); [done|].
  by rewrite bool_decide_eq_false_2 in H.
Qed.

(** A string that starts with a digit is read from its first character. *)
Lemma parseInt10_digits (s : string) :
  digits_prefix s ≠ [] →
  parseInt10 s
  = if (mathInt (digits_prefix s) <? double_limit)%Z
    then Fin (mathInt (digits_prefix s))
    else Infinite false.
Proof.
  intros Hs. destruct s as [|c r]; [done|].
  assert (∃ d, digit_value c = Some d) as [d Ed].
  { simpl in Hs. destruct (digit_value c); [eauto|done]. }
  apply digit_value_bounds in Ed.
  unfold parseInt10. cbn [trimStart].
  assert (isWhiteSpace c = false) as ->.
  { unfold isWhiteSpace. apply bool_decide_eq_false.
    rewrite !elem_of_cons, elem_of_nil. lia. }
  rewrite !bool_decide_eq_false_2
    by (intros ->; change (48 ≤ 45 ≤ 57) in Ed || change (48 ≤ 43 ≤ 57) in Ed;
        lia).
  by destruct (digits_prefix (String c r)).
Qed.

Lemma parseInt10_minus (s : string) :
  digits_prefix s ≠ [] →
  parseInt10 (String "-"%char s)
  = if (mathInt (digits_prefix s) <? double_limit)%Z
    then Fin (- mathInt (digits_prefix s))
    else Infinite true.
Proof.
  intros Hs. unfold parseInt10. cbn [trimStart].
  replace (isWhiteSpace "-") with false by done.
  rewrite bool_decide_eq_true_2 by done.
  by destruct (digits_prefix s).
Qed.

(** [parseInt] reads back the decimal rendering of an integer that fits a
    double. *)
Lemma parseInt10_pretty (z : Z) :
  (Z.abs z < double_limit)%Z → parseInt10 (pretty z) = Fin z.
Proof.
  intros Hz. destruct z as [|x|x].
  - done.
  - destruct (digits_pretty_N (N.pos x)) as (Hne & _ & Hval).
    change (pretty (Z.pos x)) with (pretty (N.pos x)).
    rewrite parseInt10_digits, Hval by done.
    destruct (Z.ltb_spec (Z.of_N (N.pos x)) double_limit); [done|lia].
  - destruct (digits_pretty_N (N.pos x)) as (Hne & _ & Hval).
    change (pretty (Z.neg x)) with (String "-"%char (pretty (N.pos x))).
    rewrite parseInt10_minus, Hval by done.
    destruct (Z.ltb_spec (Z.of_N (N.pos x)) double_limit); [done|lia].
Qed.

(** ** Where the replay starts *)

Lemma startEventId_absent l : own_lastEventId l = None → startEventId l = 0%Z.
Proof. intros H. unfold startEventId, hasOwn_lastEventId. by rewrite H. Qed.

Lemma startEventId_own l v :
  own_lastEventId l = Some v →
  startEventId l
  = match parseInt10 (ToString v) with Fin z => (z + 1)%Z | _ => 0%Z end.
Proof.
  intros H. unfold startEventId, hasOwn_lastEventId, get_lastEventId.
  rewrite H, bool_decide_eq_true_2 by eauto.
  by destruct (parseInt10 (ToString v)).
Qed.

Lemma startEventId_supplies l j : supplies l j → startEventId l = (j + 1)%Z.
Proof.
  unfold supplies. destruct (own_lastEventId l) as [v|] eqn:E; intros H.
  - by rewrite (startEventId_own l v), H.
  - rewrite startEventId_absent by done. lia.
Qed.

(** A token written in decimal supplies the integer it denotes. *)
Lemma supplies_decimal l j :
  own_lastEventId l = Some (JString (pretty j)) →
  (Z.abs j < double_limit)%Z → supplies l j.
Proof.
  intros H Hj. unfold supplies. rewrite H. simpl. by apply parseInt10_pretty.
Qed.

(** ** Single operations *)

Lemma proxy_on_data_calls p event l :
  data_calls (proxy_on p event l).2
  = if decide (event = "data")
    then (λ a, (fn l, a))
           <$> (array_get (messageHistory p)
                  <$> seqZ (startEventId l)
                        (Z.of_nat (length (messageHistory p)) - startEventId l))
    else [].
Proof.
  unfold proxy_on, newListener_handler. simpl.
  rewrite data_calls_app, data_calls_notify, app_nil_r by eauto.
  destruct (decide (event = "data")).
  - by rewrite bool_decide_eq_true_2, replay_calls, data_calls_to.
  - by rewrite bool_decide_eq_false_2.
Qed.

Lemma proxy_on_frames_to f p event l :
  frames_to f (proxy_on p event l).2
  = if decide (event = "data" ∧ fn l = f)
    then array_get (messageHistory p)
           <$> seqZ (startEventId l)
                 (Z.of_nat (length (messageHistory p)) - startEventId l)
    else [].
Proof.
  unfold proxy_on, newListener_handler. simpl.
  rewrite frames_to_app, frames_to_notify, app_nil_r by eauto.
  destruct (decide (event = "data")) as [->|].
  - rewrite bool_decide_eq_true_2, replay_calls by done.
    destruct (decide (fn l = f)) as [<-|].
    + by rewrite decide_True, frames_to_self.
    + by rewrite decide_False, frames_to_other by tauto.
  - by rewrite bool_decide_eq_false_2, decide_False by tauto.
Qed.

Lemma proxy_removeListener_frames_to f p event g :
  frames_to f (proxy_removeListener p event g).2 = [].
Proof.
  unfold proxy_removeListener.
  destruct (remove_last g (listeners_of p event)); [|done].
  simpl. by rewrite frames_to_notify by eauto.
Qed.

Lemma proxy_removeListener_history p event g :
  messageHistory (proxy_removeListener p event g).1 = messageHistory p
  ∧ serverCurrentID (proxy_removeListener p event g).1 = serverCurrentID p.
Proof.
  unfold proxy_removeListener.
  by destruct (remove_last g (listeners_of p event)).
Qed.

Lemma writeSavingID_spec p s :
  serverCurrentID p = length (messageHistory p) →
  writeSavingID p s
  = (Proxy (messageHistory p ++ [Some (with_id (serverCurrentID p) s)])
       (S (serverCurrentID p)) (listeners p),
     write p (with_id (serverCurrentID p) s)).
Proof.
  intros H. unfold writeSavingID. simpl.
  by rewrite H, array_set_end.
Qed.

Lemma consistent_counter p :
  consistent p → serverCurrentID p = length (messageHistory p).
Proof. intros (ss & -> & ->). by rewrite length_history_of. Qed.

Lemma sink_fresh p s : sink s (p, []) = writeSavingID p s.
Proof. unfold sink. cbn [fst snd]. by destruct (writeSavingID p s). Qed.

(** A handler passes at most one frame to its sink. *)
Lemma makeHandler_cases {S} n spec (snk : string → S → S) args :
  (makeHandler n spec snk args = id
   ∧ makeHandler n spec (λ s acc, acc ++ [s]) args [] = [])
  ∨ (∃ frame, makeHandler n spec snk args = snk frame
      ∧ makeHandler n spec (λ s acc, acc ++ [s]) args [] = [frame]).
Proof.
  unfold makeHandler. destruct spec as [|name [pre|]]; eauto.
  destruct (pre args); eauto.
Qed.

(** Every operation is a commit, a registration, an unregistration, or
    does nothing. *)
Lemma step_cases eventSpecs p o :
  (∃ s, committed eventSpecs o = [s] ∧ step eventSpecs p o = writeSavingID p s)
  ∨ (committed eventSpecs o = []
     ∧ ((∃ event l, o = On event l)
        ∨ (∃ event f, o = RemoveListener event f)
        ∨ step eventSpecs p o = (p, []))).
Proof.
  destruct o as [event l|event f|s|n args]; simpl; eauto 10.
  unfold source_emit. destruct (eventSpecs !! n) as [spec|]; eauto 10.
  destruct (makeHandler_cases (S := proxy * list call) n spec sink args)
    as [[-> ->]|(frame & -> & ->)].
  - right. eauto.
  - left. exists frame. by rewrite sink_fresh.
Qed.

(** ** Runs keep the history consistent and only append to it *)

Lemma step_history eventSpecs p o ss :
  messageHistory p = history_of ss →
  serverCurrentID p = length ss →
  messageHistory (step eventSpecs p o).1
    = history_of (ss ++ committed eventSpecs o)
  ∧ serverCurrentID (step eventSpecs p o).1
    = length (ss ++ committed eventSpecs o).
Proof.
  intros Hh Hc.
  destruct (step_cases eventSpecs p o)
    as [(s & -> & ->)|(-> & [(event & l & ->)|[(event & f & ->)| ->]])].
  - rewrite writeSavingID_spec by (by rewrite Hh, length_history_of).
    simpl. rewrite Hh, Hc, history_of_snoc, length_app. simpl. split; [done|lia].
  - by rewrite app_nil_r.
  - rewrite app_nil_r. simpl.
    destruct (proxy_removeListener_history p event f) as [-> ->]. done.
  - by rewrite app_nil_r.
Qed.

Lemma run_history eventSpecs os : ∀ p ss,
  messageHistory p = history_of ss →
  serverCurrentID p = length ss →
  messageHistory (run eventSpecs p os).1
    = history_of (ss ++ (os ≫= committed eventSpecs))
  ∧ serverCurrentID (run eventSpecs p os).1
    = length (ss ++ (os ≫= committed eventSpecs)).
Proof.
  induction os as [|o os IH]; intros p ss Hh Hc; simpl.
  - by rewrite app_nil_r.
  - destruct (step_history eventSpecs p o ss Hh Hc) as [Hh1 Hc1].
    destruct (step eventSpecs p o) as [p1 c1]. simpl in *.
    specialize (IH p1 _ Hh1 Hc1).
    destruct (run eventSpecs p1 os) as [p2 c2]. simpl in *.
    by rewrite <- (assoc_L (++)) in IH.
Qed.

Lemma run_consistent eventSpecs os p :
  consistent p → consistent (run eventSpecs p os).1.
Proof.
  intros (ss & Hh & Hc).
  destruct (run_history eventSpecs os p ss Hh Hc) as [? ?].
  by eexists.
Qed.

Lemma history_of_app (ss cs : list string) :
  history_of (ss ++ cs)
  = history_of ss ++ imap (λ i s, Some (with_id (length ss + i) s)) cs.
Proof. unfold history_of. by rewrite imap_app. Qed.

Lemma run_extends eventSpecs os p :
  consistent p →
  ∃ ext, messageHistory (run eventSpecs p os).1 = messageHistory p ++ ext.
Proof.
  intros (ss & Hh & Hc).
  destruct (run_history eventSpecs os p ss Hh Hc) as [-> _].
  rewrite history_of_app, Hh. eauto.
Qed.

(** ** A listener registered once receives each new frame once *)

Lemma step_untouched eventSpecs p o f :
  touches f o = false →
  filter (λ t, t = f) (listeners_of (step eventSpecs p o).1 "data")
  = filter (λ t, t = f) (listeners_of p "data").
Proof.
  intros Ht. destruct o as [event l|event g|s|n args]; simpl in *.
  - apply bool_decide_eq_false in Ht.
    unfold proxy_on. simpl. rewrite listeners_of_insert.
    destruct (decide (event = "data")) as [->|]; [|by destruct p].
    rewrite filter_app, filter_cons_False, filter_nil, app_nil_r by tauto.
    done.
  - apply bool_decide_eq_false in Ht.
    unfold proxy_removeListener.
    destruct (remove_last g (listeners_of p event)) as [fs|] eqn:E; [|done].
    simpl. rewrite listeners_of_insert.
    destruct (decide (event = "data")) as [->|]; [|by destruct p].
    apply (remove_last_filter _ g _ _ E). tauto.
  - done.
  - unfold source_emit. destruct (eventSpecs !! n) as [spec|]; [|done].
    destruct (makeHandler_cases (S := proxy * list call) n spec sink args)
      as [[-> _]|(frame & -> & _)]; [done|].
    by rewrite sink_fresh.
Qed.

Lemma step_frames_once eventSpecs p o f :
  consistent p → registered_once f p → touches f o = false →
  frames_to f (step eventSpecs p o).2
  = drop (length (messageHistory p)) (messageHistory (step eventSpecs p o).1).
Proof.
  intros Hp Hf Ht.
  destruct (step_cases eventSpecs p o)
    as [(s & _ & ->)|(_ & [(event & l & ->)|[(event & g & ->)| ->]])].
  - rewrite writeSavingID_spec by (by apply consistent_counter).
    simpl. rewrite frames_to_write, Hf, drop_app_length. done.
  - cbn [step touches] in *. apply bool_decide_eq_false in Ht.
    by rewrite proxy_on_frames_to, decide_False, drop_all.
  - cbn [step]. rewrite proxy_removeListener_frames_to.
    destruct (proxy_removeListener_history p event g) as [-> _].
    by rewrite drop_all.
  - simpl. by rewrite drop_all.
Qed.

Lemma run_frames_once eventSpecs f os : ∀ p,
  consistent p → registered_once f p →
  Forall (λ o, touches f o = false) os →
  frames_to f (run eventSpecs p os).2
  = drop (length (messageHistory p)) (messageHistory (run eventSpecs p os).1).
Proof.
  induction os as [|o os IH]; intros p Hp Hf Hos; simpl.
  - by rewrite drop_all.
  - apply Forall_cons in Hos as [Ho Hos].
    pose proof (step_frames_once eventSpecs p o f Hp Hf Ho) as H1.
    pose proof (step_untouched eventSpecs p o f Ho) as Hf1.
    pose proof (run_consistent eventSpecs [o] p Hp) as Hp1.
    destruct (run_extends eventSpecs [o] p Hp) as [a Ha].
    simpl in Hp1, Ha.
    destruct (step eventSpecs p o) as [p1 c1]. simpl in *.
    assert (registered_once f p1) as Hf1' by (unfold registered_once; congruence).
    specialize (IH p1 Hp1 Hf1' Hos).
    destruct (run_extends eventSpecs os p1 Hp1) as [b Hb].
    destruct (run eventSpecs p1 os) as [p2 c2]. simpl in *.
    rewrite frames_to_app, H1, IH, Hb, Ha.
    by rewrite !drop_app_length, <- (assoc_L (++)), drop_app_length.
Qed.

(** ** Proxies that differ in one listener's registrations *)

Lemma same_but_refl f p : same_but f p p.
Proof. by repeat split. Qed.

Lemma same_but_sym f p q : same_but f p q → same_but f q p.
Proof. intros (? & ? & H). split; [done|split; [done|]]. intros e. by rewrite H. Qed.

Lemma same_but_trans f p q r :
  same_but f p q → same_but f q r → same_but f p r.
Proof.
  intros (? & ? & H1) (? & ? & H2).
  split; [congruence|split; [congruence|]].
  intros e. by rewrite H1.
Qed.

Lemma filter_through (f m : nat) (ts : list nat) :
  m ≠ f →
  filter (λ t, t = m) (filter (λ t, t ≠ f) ts) = filter (λ t, t = m) ts.
Proof.
  intros Hm. induction ts as [|t ts IH]; [done|].
  destruct (decide (t = f)) as [->|].
  - rewrite (filter_cons_False (λ t, t ≠ f)) by tauto.
    by rewrite (filter_cons_False (λ t, t = m)) by congruence.
  - rewrite (filter_cons_True (λ t, t ≠ f)) by done.
    by rewrite !(filter_cons (λ t, t = m)), IH.
Qed.

Lemma same_but_receivers f m p q event :
  m ≠ f → same_but f p q →
  filter (λ t, t = m) (listeners_of p event)
  = filter (λ t, t = m) (listeners_of q event).
Proof.
  intros Hm (_ & _ & H).
  by rewrite <- (filter_through f m (listeners_of p event)),
    <- (filter_through f m (listeners_of q event)), H.
Qed.

Lemma proxy_on_same_but p event l : same_but (fn l) (proxy_on p event l).1 p.
Proof.
  repeat split; try done. intros e. unfold proxy_on. simpl.
  rewrite listeners_of_insert. destruct (decide (event = e)) as [->|].
  - by rewrite filter_app, filter_cons_False, filter_nil, app_nil_r by tauto.
  - by destruct p.
Qed.

Lemma proxy_removeListener_same_but p event f :
  same_but f (proxy_removeListener p event f).1 p.
Proof.
  unfold proxy_removeListener.
  destruct (remove_last f (listeners_of p event)) as [fs|] eqn:E;
    [|apply same_but_refl].
  repeat split; try done. intros e. simpl.
  rewrite listeners_of_insert. destruct (decide (event = e)) as [->|].
  - apply (remove_last_filter _ f _ _ E). tauto.
  - by destruct p.
Qed.

Lemma writeSavingID_same_but f m p q s :
  m ≠ f → same_but f p q →
  same_but f (writeSavingID p s).1 (writeSavingID q s).1
  ∧ frames_to m (writeSavingID p s).2 = frames_to m (writeSavingID q s).2.
Proof.
  intros Hm Hpq. pose proof Hpq as (Hh & Hc & Hl).
  unfold writeSavingID. simpl. split.
  - repeat split; simpl; [by rewrite Hh, Hc|by rewrite Hc|]. apply Hl.
  - rewrite !frames_to_write, Hc.
    f_equal. apply (same_but_receivers f m _ _ "data" Hm).
    repeat split; simpl; try done. by rewrite Hh.
Qed.

Lemma step_same_but eventSpecs f m p q o :
  m ≠ f → same_but f p q →
  same_but f (step eventSpecs p o).1 (step eventSpecs q o).1
  ∧ frames_to m (step eventSpecs p o).2 = frames_to m (step eventSpecs q o).2.
Proof.
  intros Hm Hpq. pose proof Hpq as (Hh & Hc & Hl).
  destruct o as [event l|event g|s|n args]; cbn [step].
  - split; [|by rewrite !proxy_on_frames_to, Hh].
    repeat split; try done. intros e. unfold proxy_on. simpl.
    rewrite !listeners_of_insert. destruct (decide (event = e)) as [->|].
    + rewrite !filter_app. f_equal. apply Hl.
    + specialize (Hl e). by destruct p, q.
  - split; [|by rewrite !proxy_removeListener_frames_to].
    destruct (decide (g = f)) as [->|Hg].
    + eapply same_but_trans; [apply proxy_removeListener_same_but|].
      eapply same_but_trans; [exact Hpq|].
      apply same_but_sym, proxy_removeListener_same_but.
    + pose proof (remove_last_commutes f g (listeners_of p event) Hg) as Ep.
      pose proof (remove_last_commutes f g (listeners_of q event) Hg) as Eq.
      rewrite (Hl event), Eq in Ep.
      unfold proxy_removeListener.
      destruct (remove_last g (listeners_of p event)) as [fp|],
        (remove_last g (listeners_of q event)) as [fq|]; simpl in Ep;
        try done.
      injection Ep as Ep.
      repeat split; try done. intros e. simpl.
      rewrite !listeners_of_insert. destruct (decide (event = e)) as [->|].
      * done.
      * specialize (Hl e). by destruct p, q.
  - by apply writeSavingID_same_but.
  - unfold source_emit. destruct (eventSpecs !! n) as [spec|]; [|done].
    destruct (makeHandler_cases (S := proxy * list call) n spec sink args)
      as [[-> _]|(frame & -> & _)]; [done|].
    rewrite !sink_fresh. by apply writeSavingID_same_but.
Qed.

Lemma run_same_but eventSpecs f m os : ∀ p q,
  m ≠ f → same_but f p q →
  same_but f (run eventSpecs p os).1 (run eventSpecs q os).1
  ∧ frames_to m (run eventSpecs p os).2 = frames_to m (run eventSpecs q os).2.
Proof.
  induction os as [|o os IH]; intros p q Hm Hpq; simpl; [done|].
  destruct (step_same_but eventSpecs f m p q o Hm Hpq) as [H1 E1].
  destruct (step eventSpecs p o) as [p1 c1], (step eventSpecs q o) as [q1 d1].
  simpl in *.
  destruct (IH p1 q1 Hm H1) as [H2 E2].
  destruct (run eventSpecs p1 os) as [p2 c2], (run eventSpecs q1 os) as [q2 d2].
  simpl in *. by rewrite !frames_to_app, E1, E2.
Qed.

(** ** Identifiers *)

Lemma assigned_ids_seq (ss : list string) : ∀ p,
  assigned_ids p ss = seq (serverCurrentID p) (length ss).
Proof.
  induction ss as [|s ss IH]; intros p; [done|].
  cbn [assigned_ids length seq]. by rewrite IH.
Qed.

Lemma makeProxyEmitter_consistent : consistent makeProxyEmitter.
Proof. by exists []. Qed.

(** Every state that a run reaches from the fresh proxy is consistent. *)
Lemma reachable_consistent eventSpecs os :
  consistent (run eventSpecs makeProxyEmitter os).1.
Proof. apply run_consistent, makeProxyEmitter_consistent. Qed.

Lemma not_registered_filter (f : nat) (ts : list nat) :
  f ∉ ts → filter (λ t, t = f) ts = [].
Proof.
  induction ts as [|t ts IH]; [done|].
  rewrite not_elem_of_cons. intros [Hne Hts].
  by rewrite filter_cons_False, IH by congruence.
Qed.

(** ** The registration does not throw on a primitive token *)

Lemma proxy_on_completion_plain (p : proxy) (event : string) (l : listener) :
  proxy_on_completion p event (plain l) = Returns (proxy_on p event l).
Proof.
  unfold proxy_on_completion, newListener_completion, proxy_on,
    newListener_handler, replay, replay_from, startEventId,
    hasOwn_lastEventId, get_lastEventId, plain. simpl.
  destruct (bool_decide (event = "data")); [|done].
  destruct (own_lastEventId l) as [v|]; simpl; [|done].
  reflexivity.
Qed.

(** A symbol as token makes the registration throw, and nothing is
    registered. *)
Example symbol_token_throws (p : proxy) :
  proxy_on_completion p "data" (FunctionValue 15 (Some SymbolValue) None)
  = Throws "TypeError".
Proof. done. Qed.

(** * The claims *)

(** C2. Monotonic identifiers. In every run from the fresh proxy, whatever
    registrations are interleaved, the commits read the identifiers
    [0, 1, ..., N-1] in commit order: the [i]-th committed string is stored
    at index [i] under the identifier [i], and the counter ends at [N]. *)
Theorem monotonic_ids (eventSpecs : gmap string EventSpec) (os : list op) :
  let ss := os ≫= committed eventSpecs in
  let p := (run eventSpecs makeProxyEmitter os).1 in
  assigned_ids makeProxyEmitter ss = seq 0 (length ss)
  ∧ NoDup (assigned_ids makeProxyEmitter ss)
  ∧ messageHistory p = history_of ss
  ∧ serverCurrentID p = length ss.
Proof.
  intros ss p. rewrite assigned_ids_seq. simpl.
  split; [done|]. split; [apply NoDup_seq|].
  by destruct (run_history eventSpecs os makeProxyEmitter [] eq_refl eq_refl).
Qed.

(** C4. Frame format. The string committed as the [id]-th commit is stored
    at index [id] and handed to every [data] listener as
    ["id: " + id + "\n" + s], where [id] is written with decimal digits
    only, which read back as [id]. *)
Theorem frame_format (eventSpecs : gmap string EventSpec) (os : list op)
    (s : string) :
  let p := (run eventSpecs makeProxyEmitter os).1 in
  let id := length (os ≫= committed eventSpecs) in
  let frame := "id: " +:+ pretty id +:+ LF +:+ s in
  serverCurrentID p = id
  ∧ array_get (messageHistory (writeSavingID p s).1) (Z.of_nat id) = Some frame
  ∧ (writeSavingID p s).2
    = (λ t, CallData t (Some frame)) <$> listeners_of p "data"
  ∧ length (digits_prefix (pretty id)) = String.length (pretty id)
  ∧ digits_prefix (pretty id) ≠ []
  ∧ mathInt (digits_prefix (pretty id)) = Z.of_nat id.
Proof.
  intros p id frame.
  destruct (run_history eventSpecs os makeProxyEmitter [] eq_refl eq_refl)
    as [Hh Hc].
  simpl in Hh, Hc. fold p in Hh, Hc. fold id in Hc.
  assert (serverCurrentID p = length (messageHistory p)) as Hlen.
  { by rewrite Hh, length_history_of. }
  split; [done|].
  rewrite writeSavingID_spec by done. simpl. rewrite Hc.
  split; [|split; [done|]].
  - rewrite Hc in Hlen. rewrite Hlen.
    rewrite array_get_nat, list_lookup_middle by done.
    simpl. by rewrite <- Hlen.
  - destruct (digits_pretty_nat id) as (? & ? & ?). done.
Qed.

(** C5. Isolation. An event whose name is not a key of [eventSpecs] reaches
    no handler: nothing is committed, nobody is called, and the proxy with
    its history and counter stays as it was. *)
Theorem isolation (eventSpecs : gmap string EventSpec) (p : proxy)
    (eventName : string) (args : list jsval) :
  eventSpecs !! eventName = None →
  source_emit eventSpecs p eventName args = (p, [])
  ∧ committed eventSpecs (Emit eventName args) = [].
Proof. intros H. unfold source_emit. simpl. by rewrite H. Qed.

Lemma isolation_witness :
  example_specs !! "somethingElse" = None
  ∧ source_emit example_specs after_example_events "somethingElse"
      [JString "blah"] = (after_example_events, []).
Proof.
  split; [reflexivity|].
  apply (isolation example_specs after_example_events "somethingElse"
           [JString "blah"]).
  reflexivity.
Defined.

(** C8. Replay only for [data]. Adding a listener for any other event name
    runs no replay: the handler calls nobody and the registration makes no
    data call at all. *)
Theorem replay_only_for_data (p : proxy) (event : string) (l : listener) :
  event ≠ "data" →
  newListener_handler p event l = []
  ∧ data_calls (proxy_on p event l).2 = []
  ∧ messageHistory (proxy_on p event l).1 = messageHistory p.
Proof.
  intros H. rewrite proxy_on_data_calls, decide_False by done.
  unfold newListener_handler. by rewrite bool_decide_eq_false_2.
Qed.

Lemma replay_only_for_data_witness :
  "end" ≠ "data"
  ∧ data_calls (proxy_on after_example_events "end" reconnecting).2 = [].
Proof.
  split; [discriminate|].
  apply (replay_only_for_data after_example_events "end" reconnecting).
  discriminate.
Defined.

(** C10. Own property only. A listener without an own [lastEventId] gets
    the whole history from index 0, whatever it inherits; and what a
    listener inherits never changes the outcome of its registration. *)
Theorem own_property_only (p : proxy) (event : string) (l : listener)
    (inherited : option jsval) :
  own_lastEventId l = None →
  startEventId l = 0%Z
  ∧ data_calls (proxy_on p "data" l).2 = (λ a, (fn l, a)) <$> messageHistory p
  ∧ proxy_on p event (Listener (fn l) (own_lastEventId l) inherited)
    = proxy_on p event l.
Proof.
  intros H. split; [by apply startEventId_absent|]. split.
  - rewrite proxy_on_data_calls, decide_True by done.
    rewrite startEventId_absent, array_get_range by done. done.
  - unfold proxy_on, newListener_handler, replay. simpl.
    by rewrite !startEventId_absent.
Qed.

Lemma own_property_only_witness :
  own_lastEventId inheriting = None
  ∧ data_calls (proxy_on after_example_events "data" inheriting).2
    = (λ a, (10, a)) <$> messageHistory after_example_events.
Proof.
  split; [reflexivity|].
  apply (own_property_only after_example_events "data" inheriting None).
  reflexivity.
Defined.

(** C1. Replay completeness. The history holds the frames with the
    identifiers [0..k] of the strings [ss]. A function not yet registered
    for [data] registers with last-seen identifier [j], [-1 <= j <= k].
    Within [proxy.on] the only data calls are to this listener, with the
    frames [j+1..k] in order. Over any later run that does not register or
    unregister this function for [data] again, it is called exactly with
    the frames committed after its registration, each once and in order, so
    with nothing as long as nothing is committed. *)
Theorem replay_completeness (eventSpecs : gmap string EventSpec) (p : proxy)
    (ss : list string) (l : listener) (j : Z) (os : list op) :
  messageHistory p = history_of ss →
  serverCurrentID p = length ss →
  supplies l j →
  (-1 ≤ j < Z.of_nat (length ss))%Z →
  fn l ∉ listeners_of p "data" →
  Forall (λ o, touches (fn l) o = false) os →
  let registered := proxy_on p "data" l in
  let later := run eventSpecs registered.1 os in
  data_calls registered.2
    = (λ a, (fn l, a)) <$> drop (Z.to_nat (j + 1)) (history_of ss)
  ∧ messageHistory registered.1 = history_of ss
  ∧ messageHistory later.1 = history_of (ss ++ (os ≫= committed eventSpecs))
  ∧ frames_to (fn l) later.2 = drop (length ss) (messageHistory later.1)
  ∧ frames_to (fn l) (registered.2 ++ later.2)
    = drop (Z.to_nat (j + 1)) (messageHistory later.1).
Proof.
  intros Hh Hc Hj Hrange Hfresh Hos registered later.
  assert (data_calls registered.2
          = (λ a, (fn l, a)) <$> drop (Z.to_nat (j + 1)) (history_of ss))
    as Hreplay.
  { unfold registered. rewrite proxy_on_data_calls, decide_True by done.
    rewrite (startEventId_supplies l j), array_get_range, Hh by (done || lia).
    done. }
  assert (consistent registered.1) as Hcons by (by exists ss).
  assert (registered_once (fn l) registered.1) as Honce.
  { unfold registered_once, registered, proxy_on. simpl.
    rewrite listeners_of_insert, decide_True, filter_app by done.
    rewrite not_registered_filter by done.
    by rewrite filter_cons_True. }
  destruct (run_history eventSpecs os registered.1 ss Hh Hc) as [Hlater _].
  pose proof (run_frames_once eventSpecs (fn l) os registered.1
                Hcons Honce Hos) as Hnew.
  fold later in Hlater, Hnew.
  change (messageHistory registered.1) with (messageHistory p) in Hnew.
  rewrite Hh, length_history_of in Hnew.
  split; [done|]. split; [done|]. split; [done|]. split; [done|].
  rewrite frames_to_app, Hnew, Hlater.
  unfold registered. rewrite proxy_on_frames_to, decide_True by done.
  rewrite (startEventId_supplies l j), array_get_range, Hh by (done || lia).
  rewrite history_of_app.
  rewrite (drop_app_le _ _ (Z.to_nat (j + 1)))
    by (rewrite length_history_of; lia).
  by rewrite (drop_app_length' (history_of ss))
    by (by rewrite length_history_of).
Qed.

Lemma replay_completeness_witness :
  messageHistory after_example_events = history_of example_frames
  ∧ serverCurrentID after_example_events = length example_frames
  ∧ supplies reconnecting 0
  ∧ (-1 ≤ 0 < Z.of_nat (length example_frames))%Z
  ∧ (fn reconnecting ∉ listeners_of after_example_events "data")
  ∧ data_calls (proxy_on after_example_events "data" reconnecting).2
    = [(7, Some (with_id 1 (format "test" (JString "someOtherData"))))]
  ∧ frames_to (fn reconnecting)
      (run example_specs
         (proxy_on after_example_events "data" reconnecting).1
         [Emit "test" [JNumber 3]]).2
    = [Some (with_id 2 (format "test" (JNumber 3)))].
Proof.
  assert (fn reconnecting ∉ listeners_of after_example_events "data") as Hf.
  { vm_compute. apply not_elem_of_nil. }
  pose proof (replay_completeness example_specs after_example_events
                example_frames reconnecting 0 [Emit "test" [JNumber 3]]
                eq_refl eq_refl eq_refl ltac:(simpl; lia)
                Hf ltac:(repeat constructor)) as (H1 & _ & H3 & H4 & _).
  split; [reflexivity|]. split; [reflexivity|]. split; [reflexivity|].
  split; [simpl; lia|]. split; [exact Hf|].
  split; [exact H1|].
  etransitivity; [exact H4|]. rewrite H3. reflexivity.
Defined.

(** C6. Other subscribers are not perturbed. Registering a listener for
    any event, or unregistering it, leaves the history as it is and calls
    no other listener with data; and over every later run, each other
    listener is called with exactly the frames, in the order, it would have
    got had the registration or unregistration not happened. *)
Theorem others_unperturbed (eventSpecs : gmap string EventSpec) (p : proxy)
    (event : string) (l : listener) (m : nat) (os : list op) :
  m ≠ fn l →
  let registered := proxy_on p event l in
  let unregistered := proxy_removeListener p event (fn l) in
  (messageHistory registered.1 = messageHistory p
   ∧ frames_to m registered.2 = []
   ∧ frames_to m (run eventSpecs registered.1 os).2
     = frames_to m (run eventSpecs p os).2
   ∧ messageHistory (run eventSpecs registered.1 os).1
     = messageHistory (run eventSpecs p os).1)
  ∧ (messageHistory unregistered.1 = messageHistory p
     ∧ frames_to m unregistered.2 = []
     ∧ frames_to m (run eventSpecs unregistered.1 os).2
       = frames_to m (run eventSpecs p os).2
     ∧ messageHistory (run eventSpecs unregistered.1 os).1
       = messageHistory (run eventSpecs p os).1).
Proof.
  intros Hm registered unregistered. split.
  - destruct (run_same_but eventSpecs (fn l) m os registered.1 p Hm
                (proxy_on_same_but p event l)) as [(Hh & _) Hf].
    split; [done|]. split; [|done].
    unfold registered. rewrite proxy_on_frames_to.
    by rewrite decide_False by (intros [_ ?]; congruence).
  - destruct (run_same_but eventSpecs (fn l) m os unregistered.1 p Hm
                (proxy_removeListener_same_but p event (fn l)))
      as [(Hh & _) Hf].
    split; [apply proxy_removeListener_history|]. split; [|done].
    apply proxy_removeListener_frames_to.
Qed.

Lemma others_unperturbed_witness :
  7 ≠ fn far_ahead
  ∧ frames_to 7
      (run example_specs
         (proxy_on (proxy_on after_example_events "data" reconnecting).1
            "data" far_ahead).1
         [Emit "test" [JNull]]).2
    = frames_to 7
        (run example_specs
           (proxy_on after_example_events "data" reconnecting).1
           [Emit "test" [JNull]]).2.
Proof.
  split; [discriminate|].
  apply (others_unperturbed example_specs
           (proxy_on after_example_events "data" reconnecting).1
           "data" far_ahead 7 [Emit "test" [JNull]]).
  discriminate.
Defined.

(** C9. Stored equals broadcast. The string that [writeSavingID] hands to
    the [data] listeners is the one it stores under the new identifier; no
    later run changes that slot, and a later replay that starts at or
    before this identifier calls its listener with the same string at the
    position of this identifier. The identifier is below [2^53] and the
    start above [-2^53], so that the token, the start and every index of
    the loop are integers that a double holds exactly. *)
Theorem stored_equals_broadcast (eventSpecs : gmap string EventSpec)
    (p : proxy) (s : string) (os : list op) (l : listener) :
  consistent p →
  (Z.of_nat (serverCurrentID p) < exact_below)%Z →
  (- exact_below < startEventId l ≤ Z.of_nat (serverCurrentID p))%Z →
  let id := Z.of_nat (serverCurrentID p) in
  let written := writeSavingID p s in
  let later := (run eventSpecs written.1 os).1 in
  ∃ frame,
    array_get (messageHistory written.1) id = Some frame
    ∧ written.2 = (λ t, CallData t (Some frame)) <$> listeners_of p "data"
    ∧ array_get (messageHistory later) id = Some frame
    ∧ newListener_handler later "data" l
        !! Z.to_nat (id - startEventId l)
      = Some (CallData (fn l) (Some frame)).
Proof.
  intros Hp _ Hstart id written later.
  pose proof (consistent_counter p Hp) as Hlen.
  exists (with_id (serverCurrentID p) s).
  assert (array_get (messageHistory written.1) id
          = Some (with_id (serverCurrentID p) s)) as Hstored.
  { unfold written, id. rewrite writeSavingID_spec by done. simpl.
    by rewrite Hlen, array_get_nat, list_lookup_middle, <- Hlen. }
  assert (consistent written.1) as Hw.
  { apply (run_consistent eventSpecs [Commit s] p Hp). }
  destruct (run_extends eventSpecs os written.1 Hw) as [ext Hext].
  fold later in Hext.
  assert (serverCurrentID p < length (messageHistory written.1)) as Hin.
  { unfold written. rewrite writeSavingID_spec by done. simpl.
    rewrite length_app. simpl. lia. }
  assert (array_get (messageHistory later) id
          = Some (with_id (serverCurrentID p) s)) as Hlater.
  { rewrite Hext. unfold id. rewrite array_get_app_l by done. exact Hstored. }
  split; [done|]. split.
  { unfold written. by rewrite writeSavingID_spec. }
  split; [done|].
  unfold newListener_handler, replay.
  rewrite bool_decide_eq_true_2, list_lookup_fmap by done.
  rewrite lookup_seqZ_lt.
  - simpl. replace (startEventId l + Z.of_nat (Z.to_nat (id - startEventId l)))%Z
      with id by lia.
    by rewrite Hlater.
  - rewrite Hext, length_app. unfold id. lia.
Qed.

Lemma stored_equals_broadcast_witness :
  consistent after_example_events
  ∧ (Z.of_nat (serverCurrentID after_example_events) < exact_below)%Z
  ∧ (- exact_below < startEventId reconnecting
     ≤ Z.of_nat (serverCurrentID after_example_events))%Z
  ∧ ∃ frame,
      array_get (messageHistory (writeSavingID after_example_events "x").1) 2
      = Some frame
      ∧ newListener_handler
          (run example_specs (writeSavingID after_example_events "x").1
             [Commit "y"]).1 "data" reconnecting !! 1
        = Some (CallData 7 (Some frame)).
Proof.
  assert (consistent after_example_events) as Hc.
  { exists example_frames. split; reflexivity. }
  assert (Z.of_nat (serverCurrentID after_example_events) < exact_below)%Z
    as Hid by (by vm_compute).
  assert (- exact_below < startEventId reconnecting
          ≤ Z.of_nat (serverCurrentID after_example_events))%Z as Hs.
  { vm_compute. split; [reflexivity|discriminate]. }
  split; [exact Hc|]. split; [exact Hid|]. split; [exact Hs|].
  destruct (stored_equals_broadcast example_specs after_example_events "x"
              [Commit "y"] reconnecting Hc Hid Hs)
    as (frame & H1 & _ & _ & H4).
  exists frame. split; [exact H1|exact H4].
Defined.

(** C3, as stated, fails. With the frames 0 and 1 in the history, the token
    ["5"] parses to 5, which is larger than every committed identifier; the
    registration then replays nothing, whereas the same listener without a
    token gets both frames. *)
Lemma out_of_range_is_not_absent :
  parseInt10 (ToString (JString "5")) = Fin 5
  ∧ (Z.of_nat (length (messageHistory after_example_events)) - 1 < 5)%Z
  ∧ data_calls (proxy_on after_example_events "data" far_ahead).2 = []
  ∧ data_calls
      (proxy_on after_example_events "data" (without_lastEventId far_ahead)).2
    = [(8, Some (with_id 0 (format "test" (JString "someData"))));
       (8, Some (with_id 1 (format "test" (JString "someOtherData"))))]
  ∧ proxy_on after_example_events "data" far_ahead
    ≠ proxy_on after_example_events "data" (without_lastEventId far_ahead).
Proof.
  split; [reflexivity|]. split; [vm_compute; reflexivity|].
  split; [reflexivity|]. split; [reflexivity|].
  intros H. apply (f_equal (λ r, data_calls r.2)) in H.
  vm_compute in H. discriminate.
Qed.

(** C3, amended. Let the own [lastEventId] be a primitive value, a number
    being one that prints with all its digits, that [parseInt] does not
    read as an integer below [-1], on a history of fewer than [2^53]
    frames. The registration returns and does not throw. It replays the
    stored frames from index 0 when the value does not parse to a finite
    integer, as for an absent token, and from index [j + 1] when it parses
    to [j]: the frames after [j], which is nothing when [j] is beyond the
    largest committed identifier. The proxy is left in the same state as
    for an absent token. *)
Theorem malformed_lastEventId (p : proxy) (l : listener) (v : jsval) :
  own_lastEventId l = Some v →
  prints_in_decimal v →
  (Z.of_nat (length (messageHistory p)) < exact_below)%Z →
  (∀ j, parseInt10 (ToString v) = Fin j → (-1 ≤ j)%Z) →
  let start :=
    match parseInt10 (ToString v) with
    | Fin j => Z.to_nat (j + 1)
    | _ => 0
    end in
  proxy_on_completion p "data" (plain l) = Returns (proxy_on p "data" l)
  ∧ data_calls (proxy_on p "data" l).2
    = (λ a, (fn l, a)) <$> drop start (messageHistory p)
  ∧ data_calls (proxy_on p "data" (without_lastEventId l)).2
    = (λ a, (fn l, a)) <$> messageHistory p
  ∧ (proxy_on p "data" l).1 = (proxy_on p "data" (without_lastEventId l)).1.
Proof.
  intros Hv _ _ Hj start.
  split; [apply proxy_on_completion_plain|]. split; [|split; [|done]].
  - rewrite proxy_on_data_calls, decide_True by done.
    rewrite (startEventId_own l v Hv). unfold start.
    destruct (parseInt10 (ToString v)) as [|j|neg].
    + by rewrite array_get_range.
    + specialize (Hj j eq_refl). by rewrite array_get_range by lia.
    + by rewrite array_get_range.
  - rewrite proxy_on_data_calls, decide_True by done.
    rewrite startEventId_absent by done. by rewrite array_get_range.
Qed.

Lemma malformed_lastEventId_witness :
  own_lastEventId garbled = Some (JString "abc")
  ∧ prints_in_decimal (JString "abc")
  ∧ (Z.of_nat (length (messageHistory after_example_events)) < exact_below)%Z
  ∧ parseInt10 (ToString (JString "abc")) = NaN
  ∧ proxy_on_completion after_example_events "data" (plain garbled)
    = Returns (proxy_on after_example_events "data" garbled)
  ∧ data_calls (proxy_on after_example_events "data" garbled).2
    = (λ a, (fn garbled, a)) <$> messageHistory after_example_events
  ∧ data_calls (proxy_on after_example_events "data" far_ahead).2 = [].
Proof.
  assert (Z.of_nat (length (messageHistory after_example_events))
          < exact_below)%Z as Hlen by (by vm_compute).
  destruct (malformed_lastEventId after_example_events garbled (JString "abc")
              eq_refl I Hlen) as (H1 & H2 & _).
  { intros j H. vm_compute in H. discriminate. }
  destruct (malformed_lastEventId after_example_events far_ahead (JString "5")
              eq_refl I Hlen) as (_ & H3 & _).
  { intros j H. vm_compute in H. injection H as <-. lia. }
  split; [reflexivity|]. split; [exact I|]. split; [exact Hlen|].
  split; [reflexivity|]. split; [exact H1|]. split; [exact H2|exact H3].
Defined.

(** C7. Filter correctness. A handler whose pre-processor passes [true] on
    and does not call back on [false] is called with [true], [false],
    [true], [false]: the sink is called twice, each time with the frame
    formatted from [true] under the effective name, and a call with [false]
    leaves the sink's state as it is. *)
Theorem filter_correctness (sourceEventName : string) (name : option string)
    (preProcessor : list jsval → option jsval) (filtered : list string) :
  preProcessor [JBool true] = Some (JBool true) →
  preProcessor [JBool false] = None →
  let spec := SpecObject name (Some preProcessor) in
  let handler :=
    makeHandler sourceEventName spec (λ s filtered, filtered ++ [s]) in
  let frame := format (effective_name sourceEventName spec) (JBool true) in
  handler [JBool false]
    (handler [JBool true] (handler [JBool false] (handler [JBool true] [])))
  = [frame; frame]
  ∧ handler [JBool false] filtered = filtered
  ∧ handler [JBool true] filtered = filtered ++ [frame].
Proof.
  intros Ht Hf spec handler frame.
  unfold handler, makeHandler. simpl. by rewrite Ht, Hf.
Qed.

Lemma filter_correctness_witness :
  drop_false [JBool true] = Some (JBool true)
  ∧ drop_false [JBool false] = None
  ∧ (let handler :=
       makeHandler "handlerName" (SpecObject (Some "customName")
                                    (Some drop_false))
         (λ s filtered, filtered ++ [s]) in
     handler [JBool false]
       (handler [JBool true] (handler [JBool false] (handler [JBool true] [])))
     = ["event: customName" +:+ LF +:+ "data: true" +:+ LF +:+ LF;
        "event: customName" +:+ LF +:+ "data: true" +:+ LF +:+ LF]).
Proof.
  split; [reflexivity|]. split; [reflexivity|].
  apply (filter_correctness "handlerName" (Some "customName") drop_false []
           eq_refl eq_refl).
Defined.

(** ** The scenarios of the tests *)

(** A client that connects after the example events without a token gets
    both frames; one that supplies ["0"] gets the frame 1 only. *)
Example backfill :
  data_calls
    (proxy_on after_example_events "data" (without_lastEventId reconnecting)).2
  = [(7, Some ("id: 0" +:+ LF +:+ "event: test" +:+ LF
                +:+ "data: " +:+ DQUOTE +:+ "someData" +:+ DQUOTE
                +:+ LF +:+ LF));
     (7, Some ("id: 1" +:+ LF +:+ "event: test" +:+ LF
                +:+ "data: " +:+ DQUOTE +:+ "someOtherData" +:+ DQUOTE
                +:+ LF +:+ LF))]
  ∧ data_calls (proxy_on after_example_events "data" reconnecting).2
    = [(7, Some ("id: 1" +:+ LF +:+ "event: test" +:+ LF
                  +:+ "data: " +:+ DQUOTE +:+ "someOtherData" +:+ DQUOTE
                  +:+ LF +:+ LF))].
Proof. split; reflexivity. Qed.

(** A token that parses to an integer below [-1] makes the loop start at a
    negative index: the listener is first called with [undefined], once per
    negative index, and then with the whole history. *)
Example negative_lastEventId :
  parseInt10 (ToString (JString "-3")) = Fin (-3)
  ∧ data_calls
      (proxy_on after_example_events "data"
         (Listener 11 (Some (JString "-3")) None)).2
    = [(11, None); (11, None);
       (11, Some (with_id 0 (format "test" (JString "someData"))));
       (11, Some (with_id 1 (format "test" (JString "someOtherData"))))].
Proof. split; reflexivity. Qed.

(** What [parseInt] makes of some tokens. *)
Example parseInt10_samples :
  parseInt10 "0" = Fin 0
  ∧ parseInt10 "  42" = Fin 42
  ∧ parseInt10 "12abc" = Fin 12
  ∧ parseInt10 "1.5" = Fin 1
  ∧ parseInt10 "-1" = Fin (-1)
  ∧ parseInt10 "+7" = Fin 7
  ∧ parseInt10 "" = NaN
  ∧ parseInt10 "abc" = NaN
  ∧ parseInt10 "-" = NaN
  ∧ parseInt10 (ToString JUndefined) = NaN
  ∧ parseInt10 (ToString (JNumber 17)) = Fin 17.
Proof. repeat split; reflexivity. Qed.

(** * Further properties of the proxy emitter *)

(** ** The history over a run *)

Lemma run_app eventSpecs os1 os2 p :
  run eventSpecs p (os1 ++ os2)
  = ((run eventSpecs (run eventSpecs p os1).1 os2).1,
     (run eventSpecs p os1).2 ++ (run eventSpecs (run eventSpecs p os1).1 os2).2).
Proof.
  revert p. induction os1 as [|o os1 IH]; intros p; simpl.
  - by destruct (run eventSpecs p os2).
  - destruct (step eventSpecs p o) as [p1 c1]. rewrite IH.
    destruct (run eventSpecs p1 os1) as [p2 c2]. simpl.
    destruct (run eventSpecs p2 os2) as [p3 c3]. simpl.
    by rewrite (assoc_L (++)).
Qed.

(** X1. The history is append-only: whatever a run does after reaching a
    state, the history of that state stays as the beginning of every later
    history, and the counter never goes down. *)
Theorem history_append_only (eventSpecs : gmap string EventSpec)
    (os1 os2 : list op) :
  let before := (run eventSpecs makeProxyEmitter os1).1 in
  let after := (run eventSpecs makeProxyEmitter (os1 ++ os2)).1 in
  messageHistory before `prefix_of` messageHistory after
  ∧ serverCurrentID before ≤ serverCurrentID after.
Proof.
  intros before after. unfold after. rewrite run_app. simpl. fold before.
  pose proof (reachable_consistent eventSpecs os1) as Hc. fold before in Hc.
  destruct (run_extends eventSpecs os2 before Hc) as [ext Hext].
  split; [rewrite Hext; by exists ext|].
  rewrite (consistent_counter before Hc).
  rewrite (consistent_counter _ (run_consistent eventSpecs os2 before Hc)).
  rewrite Hext, length_app. lia.
Qed.

(** ** A frame determines its identifier *)

Lemma digits_prefix_app (s t : string) :
  length (digits_prefix s) = String.length s →
  digits_prefix (s +:+ t) = digits_prefix s ++ digits_prefix t.
Proof.
  induction s as [|c r IH]; [done|]. simpl.
  destruct (digit_value c); simpl; [|done].
  intros H. rewrite IH by lia. done.
Qed.

Lemma digits_prefix_LF (s : string) : digits_prefix (LF +:+ s) = [].
Proof. done. Qed.

Lemma with_id_inj (i j : nat) (s t : string) :
  with_id i s = with_id j t → i = j ∧ s = t.
Proof.
  unfold with_id. intros H.
  apply (inj (String.app "id: ")) in H.
  destruct (digits_pretty_nat i) as (_ & Hi & Vi).
  destruct (digits_pretty_nat j) as (_ & Hj & Vj).
  assert (i = j) as ->.
  { apply (f_equal digits_prefix) in H.
    rewrite (digits_prefix_app (pretty i)), (digits_prefix_app (pretty j))
      in H by done.
    rewrite !digits_prefix_LF, !app_nil_r in H.
    rewrite H, Vj in Vi. lia. }
  split; [done|].
  apply (inj (String.app (pretty j))) in H.
  by apply (inj (String.app LF)) in H.
Qed.

(** X2. No two slots of the history hold the same string: the identifier
    line makes every stored frame different from the others, also when the
    same text is committed twice. *)
Theorem history_frames_distinct (eventSpecs : gmap string EventSpec)
    (os : list op) :
  NoDup (messageHistory (run eventSpecs makeProxyEmitter os).1).
Proof.
  destruct (reachable_consistent eventSpecs os) as (ss & -> & _).
  apply NoDup_alt. intros i j x. unfold history_of.
  rewrite !list_lookup_imap.
  destruct (ss !! i) as [s|]; [|done]. destruct (ss !! j) as [t|]; [|done].
  simpl. intros E1 E2. rewrite <- E2 in E1.
  assert (with_id i s = with_id j t) as E by congruence.
  by apply with_id_inj in E as [? _].
Qed.

(** ** Tokens *)

Lemma trimStart_app (ws t : string) :
  trimStart ws = "" → trimStart (ws +:+ t) = trimStart t.
Proof.
  induction ws as [|c r IH]; [done|]. simpl.
  destruct (isWhiteSpace c); [done|discriminate].
Qed.

Lemma parseInt10_trim (ws t : string) :
  trimStart ws = "" → parseInt10 (ws +:+ t) = parseInt10 t.
Proof. intros H. unfold parseInt10. by rewrite trimStart_app. Qed.

Lemma digits_pretty_N_junk (n : N) (junk : string) :
  digits_prefix junk = [] →
  digits_prefix (pretty n +:+ junk) = digits_prefix (pretty n).
Proof.
  intros Hj. destruct (digits_pretty_N n) as (_ & Hlen & _).
  by rewrite digits_prefix_app, Hj, app_nil_r.
Qed.

(** [parseInt] reads a decimal integer that fits a double, whatever white
    space precedes it and whatever follows its digits. *)
Lemma parseInt10_tolerant (ws junk : string) (j : Z) :
  trimStart ws = "" → digits_prefix junk = [] →
  (Z.abs j < double_limit)%Z →
  parseInt10 (ws +:+ pretty j +:+ junk) = Fin j.
Proof.
  intros Hws Hjunk Hj. rewrite parseInt10_trim by done.
  assert (∀ n : N, (Z.of_N n < double_limit)%Z →
            parseInt10 (pretty n +:+ junk) = Fin (Z.of_N n)
            ∧ parseInt10 (String "-"%char (pretty n +:+ junk))
              = Fin (- Z.of_N n)) as Hn.
  { intros n Hlt. destruct (digits_pretty_N n) as (Hne & _ & Hval).
    rewrite parseInt10_digits, parseInt10_minus
      by (by rewrite digits_pretty_N_junk).
    rewrite digits_pretty_N_junk, Hval by done.
    by destruct (Z.ltb_spec (Z.of_N n) double_limit); [|lia]. }
  destruct j as [|x|x].
  - apply (Hn 0%N). done.
  - change (pretty (Z.pos x)) with (pretty (N.pos x)).
    apply (Hn (N.pos x)). lia.
  - change (pretty (Z.neg x)) with (String "-"%char (pretty (N.pos x))).
    apply (Hn (N.pos x)). lia.
Qed.

Lemma exact_below_double_limit : (1 < exact_below < double_limit)%Z.
Proof. by vm_compute. Qed.

Lemma pretty_Z_of_nat (i : nat) : pretty (Z.of_nat i) = pretty i.
Proof. by destruct i. Qed.

(** X3. Identifier round trip. In every reachable state the slot [i] holds
    a frame that starts with ["id: "], the decimal text of [i] and a line
    feed; a listener that hands this decimal text back as its token is
    replayed exactly the frames stored after [i]. *)
Theorem identifier_round_trip (eventSpecs : gmap string EventSpec)
    (os : list op) (l : listener) (i : nat) :
  i < length (messageHistory (run eventSpecs makeProxyEmitter os).1) →
  (Z.of_nat i < exact_below)%Z →
  own_lastEventId l = Some (JString (pretty i)) →
  let p := (run eventSpecs makeProxyEmitter os).1 in
  (∃ s, array_get (messageHistory p) (Z.of_nat i)
        = Some ("id: " +:+ pretty i +:+ LF +:+ s))
  ∧ startEventId l = Z.of_nat (S i)
  ∧ data_calls (proxy_on p "data" l).2
    = (λ a, (fn l, a)) <$> drop (S i) (messageHistory p).
Proof.
  intros Hi Hlim Hown p. fold p in Hi.
  pose proof exact_below_double_limit as Hex.
  assert (startEventId l = Z.of_nat (S i)) as Hstart.
  { rewrite (startEventId_own l _ Hown). simpl.
    rewrite <- pretty_Z_of_nat, parseInt10_pretty by lia. lia. }
  split; [|split; [done|]].
  - destruct (reachable_consistent eventSpecs os) as (ss & Hh & _).
    fold p in Hh. rewrite array_get_nat, Hh. unfold history_of.
    rewrite list_lookup_imap.
    rewrite Hh, length_history_of in Hi.
    destruct (lookup_lt_is_Some_2 ss i Hi) as [s ->]. by exists s.
  - rewrite proxy_on_data_calls, decide_True, Hstart by done.
    by rewrite array_get_range, Nat2Z.id by lia.
Qed.

Lemma identifier_round_trip_witness :
  1 < length (messageHistory after_example_events)
  ∧ (Z.of_nat 1 < exact_below)%Z
  ∧ startEventId (Listener 7 (Some (JString (pretty 1))) None) = 2%Z
  ∧ data_calls
      (proxy_on after_example_events "data"
         (Listener 7 (Some (JString (pretty 1))) None)).2 = [].
Proof.
  assert (1 < length (messageHistory after_example_events)) as H1.
  { vm_compute. lia. }
  assert (Z.of_nat 1 < exact_below)%Z as H2 by (by vm_compute).
  destruct (identifier_round_trip example_specs example_events
              (Listener 7 (Some (JString (pretty 1))) None) 1 H1 H2 eq_refl)
    as (_ & H3 & H4).
  split; [exact H1|]. split; [exact H2|]. split; [exact H3|exact H4].
Defined.

(** X4. Token tolerance. An own [lastEventId] string made of white space,
    then the decimal text of an integer [j >= -1], then anything that does
    not start with a digit (a fraction, letters, nothing) is taken as [j],
    for [j] in the range that a double holds exactly: the replay starts
    after [j]. *)
Theorem token_tolerance (p : proxy) (l : listener) (ws junk : string)
    (j : Z) :
  own_lastEventId l = Some (JString (ws +:+ pretty j +:+ junk)) →
  trimStart ws = "" →
  digits_prefix junk = [] →
  (-1 ≤ j < exact_below)%Z →
  startEventId l = (j + 1)%Z
  ∧ data_calls (proxy_on p "data" l).2
    = (λ a, (fn l, a)) <$> drop (Z.to_nat (j + 1)) (messageHistory p).
Proof.
  intros Hown Hws Hjunk Hj.
  assert (startEventId l = (j + 1)%Z) as Hstart.
  { pose proof exact_below_double_limit.
    rewrite (startEventId_own l _ Hown). simpl.
    rewrite parseInt10_tolerant by (done || lia). done. }
  split; [done|].
  rewrite proxy_on_data_calls, decide_True, Hstart by done.
  by rewrite array_get_range by lia.
Qed.

Lemma token_tolerance_witness :
  own_lastEventId padded = Some (JString (" " +:+ pretty 1%Z +:+ ".5"))
  ∧ trimStart " " = ""
  ∧ digits_prefix ".5" = []
  ∧ (-1 ≤ 1 < exact_below)%Z
  ∧ startEventId padded = 2%Z
  ∧ data_calls (proxy_on after_example_events "data" padded).2 = [].
Proof.
  assert (-1 ≤ 1 < exact_below)%Z as Hj by (by vm_compute).
  destruct (token_tolerance after_example_events padded " " ".5" 1
              eq_refl eq_refl eq_refl Hj) as [H1 H2].
  split; [reflexivity|]. split; [reflexivity|]. split; [reflexivity|].
  split; [exact Hj|]. split; [exact H1|exact H2].
Defined.

Lemma double_limit_below : (double_limit < 2 ^ 1024)%Z.
Proof. by vm_compute. Qed.

(** X5. Oversized token. A decimal token of magnitude [2^1024] or more
    parses to an infinity, which [Number.isFinite] rejects: the listener is
    replayed the whole history, as if it had no token. *)
Theorem oversized_token_full_replay (p : proxy) (l : listener) (z : Z) :
  own_lastEventId l = Some (JString (pretty z)) →
  (2 ^ 1024 ≤ Z.abs z)%Z →
  isFinite (parseInt10 (pretty z)) = false
  ∧ startEventId l = 0%Z
  ∧ data_calls (proxy_on p "data" l).2
    = (λ a, (fn l, a)) <$> messageHistory p.
Proof.
  intros Hown Hz. pose proof double_limit_below as Hlim.
  assert (isFinite (parseInt10 (pretty z)) = false) as Hinf.
  { destruct z as [|x|x].
    - simpl in Hz. lia.
    - destruct (digits_pretty_N (N.pos x)) as (Hne & _ & Hval).
      change (pretty (Z.pos x)) with (pretty (N.pos x)).
      rewrite parseInt10_digits, Hval by done.
      by destruct (Z.ltb_spec (Z.of_N (N.pos x)) double_limit); [lia|].
    - destruct (digits_pretty_N (N.pos x)) as (Hne & _ & Hval).
      change (pretty (Z.neg x)) with (String "-"%char (pretty (N.pos x))).
      rewrite parseInt10_minus, Hval by done.
      by destruct (Z.ltb_spec (Z.of_N (N.pos x)) double_limit); [lia|]. }
  assert (startEventId l = 0%Z) as Hstart.
  { unfold startEventId, hasOwn_lastEventId, get_lastEventId.
    rewrite Hown, bool_decide_eq_true_2 by eauto. simpl. by rewrite Hinf. }
  split; [done|]. split; [done|].
  rewrite proxy_on_data_calls, decide_True, Hstart by done.
  by rewrite array_get_range.
Qed.

Lemma oversized_token_full_replay_witness :
  own_lastEventId oversized = Some (JString (pretty (2 ^ 1024)%Z))
  ∧ (2 ^ 1024 ≤ Z.abs (2 ^ 1024))%Z
  ∧ data_calls (proxy_on after_example_events "data" oversized).2
    = (λ a, (fn oversized, a)) <$> messageHistory after_example_events.
Proof.
  assert (2 ^ 1024 ≤ Z.abs (2 ^ 1024))%Z as Hz by (by vm_compute).
  split; [reflexivity|]. split; [exact Hz|].
  apply (oversized_token_full_replay after_example_events oversized
           (2 ^ 1024) eq_refl Hz).
Defined.

(** ** A start below zero *)

Lemma array_get_below_zero {A} (a : list (option A)) (start : Z) :
  (start ≤ 0)%Z →
  array_get a <$> seqZ start (Z.of_nat (length a) - start)
  = replicate (Z.to_nat (- start)) None ++ a.
Proof.
  intros Hs.
  replace (Z.of_nat (length a) - start)%Z
    with (- start + Z.of_nat (length a))%Z by lia.
  rewrite seqZ_app, fmap_app by lia. f_equal.
  - apply list_eq. intros i. rewrite list_lookup_fmap.
    destruct (decide (Z.of_nat i < - start)%Z).
    + rewrite lookup_seqZ_lt, lookup_replicate_2 by lia. simpl.
      unfold array_get. by destruct (Z.ltb_spec (start + Z.of_nat i) 0); [|lia].
    + rewrite lookup_seqZ_ge by lia. simpl. symmetry.
      apply lookup_replicate_None. lia.
  - replace (start + - start)%Z with 0%Z by lia.
    replace (Z.of_nat (length a)) with (Z.of_nat (length a) - 0)%Z at 1 by lia.
    by rewrite array_get_range.
Qed.

(** X6. Token below [-1]. When the own [lastEventId] parses to an integer
    [j < -1], the loop starts at the negative index [j + 1]: the listener
    is called with [undefined] once for each index below zero, [-(j + 1)]
    times, and then with the whole history. *)
Theorem negative_token_calls_with_undefined (p : proxy) (l : listener)
    (v : jsval) (j : Z) :
  own_lastEventId l = Some v →
  parseInt10 (ToString v) = Fin j →
  (- exact_below ≤ j < -1)%Z →
  data_calls (proxy_on p "data" l).2
  = replicate (Z.to_nat (- (j + 1))) (fn l, None)
    ++ ((λ a, (fn l, a)) <$> messageHistory p).
Proof.
  intros Hown Hparse Hj.
  rewrite proxy_on_data_calls, decide_True by done.
  rewrite (startEventId_own l v Hown), Hparse.
  rewrite array_get_below_zero, fmap_app, fmap_replicate by lia.
  done.
Qed.

Lemma negative_token_calls_with_undefined_witness :
  own_lastEventId below_zero = Some (JString "-3")
  ∧ parseInt10 (ToString (JString "-3")) = Fin (-3)
  ∧ (- exact_below ≤ -3 < -1)%Z
  ∧ data_calls (proxy_on after_example_events "data" below_zero).2
    = [(11, None); (11, None)]
      ++ ((λ a, (11, a)) <$> messageHistory after_example_events).
Proof.
  assert (- exact_below ≤ -3 < -1)%Z as Hj by (by vm_compute).
  split; [reflexivity|]. split; [reflexivity|]. split; [exact Hj|].
  apply (negative_token_calls_with_undefined after_example_events below_zero
           (JString "-3") (-3) eq_refl eq_refl Hj).
Defined.

(** ** Registrations of one function *)

Lemma remove_last_once (f : nat) (fs fs' : list nat) :
  remove_last f fs = Some fs' →
  filter (λ t, t = f) fs = f :: filter (λ t, t = f) fs'.
Proof.
  revert fs'. induction fs as [|x r IH]; intros fs' H; [done|].
  simpl in H. destruct (remove_last f r) as [r'|] eqn:E.
  - injection H as <-. rewrite !filter_cons, (IH r' eq_refl).
    by destruct (decide (x = f)) as [->|].
  - destruct (decide (x = f)) as [->|]; [|done].
    injection H as <-. by rewrite filter_cons_True.
Qed.

Lemma remove_last_None (f : nat) (fs : list nat) :
  remove_last f fs = None → filter (λ t, t = f) fs = [].
Proof.
  induction fs as [|x r IH]; [done|]. simpl.
  destruct (remove_last f r); [done|].
  destruct (decide (x = f)); [done|]. intros _.
  by rewrite filter_cons_False, IH.
Qed.

Lemma proxy_on_registers (f : nat) (p : proxy) (l : listener) :
  filter (λ t, t = f) (listeners_of (proxy_on p "data" l).1 "data")
  = filter (λ t, t = f) (listeners_of p "data")
    ++ (if decide (fn l = f) then [f] else []).
Proof.
  unfold proxy_on. simpl.
  rewrite listeners_of_insert, decide_True, filter_app by done.
  f_equal. rewrite filter_cons, filter_nil.
  by destruct (decide (fn l = f)) as [->|].
Qed.

Lemma proxy_removeListener_unregisters (f g : nat) (p : proxy) :
  filter (λ t, t = f)
    (listeners_of (proxy_removeListener p "data" g).1 "data")
  = if decide (g = f)
    then tail (filter (λ t, t = f) (listeners_of p "data"))
    else filter (λ t, t = f) (listeners_of p "data").
Proof.
  unfold proxy_removeListener.
  destruct (remove_last g (listeners_of p "data")) as [fs|] eqn:E; simpl.
  - rewrite listeners_of_insert, decide_True by done.
    destruct (decide (g = f)) as [->|Hg].
    + by rewrite (remove_last_once f _ fs E).
    + apply (remove_last_filter _ g _ _ E). congruence.
  - destruct (decide (g = f)) as [->|]; [|done].
    by rewrite (remove_last_None f _ E).
Qed.

Lemma run_untouched eventSpecs f os : ∀ p,
  Forall (λ o, touches f o = false) os →
  filter (λ t, t = f) (listeners_of (run eventSpecs p os).1 "data")
  = filter (λ t, t = f) (listeners_of p "data").
Proof.
  induction os as [|o os IH]; intros p Hos; simpl; [done|].
  apply Forall_cons in Hos as [Ho Hos].
  pose proof (step_untouched eventSpecs p o f Ho) as H1.
  destruct (step eventSpecs p o) as [p1 c1]. simpl in *.
  specialize (IH p1 Hos).
  destruct (run eventSpecs p1 os) as [p2 c2]. simpl in *. congruence.
Qed.

Lemma step_frames_none eventSpecs p o f :
  filter (λ t, t = f) (listeners_of p "data") = [] →
  touches f o = false →
  frames_to f (step eventSpecs p o).2 = [].
Proof.
  intros Hf Ht.
  destruct (step_cases eventSpecs p o)
    as [(s & _ & ->)|(_ & [(event & l & ->)|[(event & g & ->)| ->]])].
  - unfold writeSavingID. cbn [snd]. rewrite frames_to_write.
    change (listeners_of _ "data") with (listeners_of p "data").
    by rewrite Hf.
  - cbn [step touches] in *. apply bool_decide_eq_false in Ht.
    by rewrite proxy_on_frames_to, decide_False.
  - cbn [step]. apply proxy_removeListener_frames_to.
  - done.
Qed.

Lemma run_frames_none eventSpecs f os : ∀ p,
  filter (λ t, t = f) (listeners_of p "data") = [] →
  Forall (λ o, touches f o = false) os →
  frames_to f (run eventSpecs p os).2 = [].
Proof.
  induction os as [|o os IH]; intros p Hf Hos; simpl; [done|].
  apply Forall_cons in Hos as [Ho Hos].
  pose proof (step_frames_none eventSpecs p o f Hf Ho) as H1.
  pose proof (step_untouched eventSpecs p o f Ho) as Hf1.
  destruct (step eventSpecs p o) as [p1 c1]. simpl in *.
  rewrite Hf in Hf1. specialize (IH p1 Hf1 Hos).
  destruct (run eventSpecs p1 os) as [p2 c2]. simpl in *.
  by rewrite frames_to_app, H1, IH.
Qed.

(** X7. Registering twice. A function that registers twice for [data] is
    called twice with the frame of the next commit; one [removeListener]
    takes away one of the two registrations only, after which the next
    commit calls it once. *)
Theorem double_registration_doubles (p : proxy) (l : listener) (s : string) :
  fn l ∉ listeners_of p "data" →
  let twice := (proxy_on (proxy_on p "data" l).1 "data" l).1 in
  let once := (proxy_removeListener twice "data" (fn l)).1 in
  let frame := with_id (serverCurrentID p) s in
  frames_to (fn l) (writeSavingID twice s).2 = [Some frame; Some frame]
  ∧ frames_to (fn l) (writeSavingID once s).2 = [Some frame].
Proof.
  intros Hfresh twice once frame.
  assert (filter (λ t, t = fn l) (listeners_of twice "data") = [fn l; fn l])
    as Htwice.
  { unfold twice. rewrite !proxy_on_registers, decide_True by done.
    by rewrite not_registered_filter. }
  assert (filter (λ t, t = fn l) (listeners_of once "data") = [fn l])
    as Honce.
  { unfold once. rewrite proxy_removeListener_unregisters, decide_True by done.
    by rewrite Htwice. }
  assert (serverCurrentID once = serverCurrentID p) as Hc.
  { unfold once. by destruct (proxy_removeListener_history twice "data" (fn l))
      as [_ ->]. }
  split.
  - unfold writeSavingID. cbn [snd]. rewrite frames_to_write.
    change (listeners_of _ "data") with (listeners_of twice "data").
    by rewrite Htwice.
  - unfold writeSavingID. cbn [snd]. rewrite frames_to_write.
    change (listeners_of _ "data") with (listeners_of once "data").
    by rewrite Honce, Hc.
Qed.

Lemma double_registration_doubles_witness :
  (fn reconnecting ∉ listeners_of after_example_events "data")
  ∧ frames_to 7
      (writeSavingID
         (proxy_on (proxy_on after_example_events "data" reconnecting).1
            "data" reconnecting).1 "x").2
    = [Some (with_id 2 "x"); Some (with_id 2 "x")].
Proof.
  assert (fn reconnecting ∉ listeners_of after_example_events "data") as Hf.
  { vm_compute. apply not_elem_of_nil. }
  split; [exact Hf|].
  apply (double_registration_doubles after_example_events reconnecting "x" Hf).
Defined.

(** X8. Unregistering stops the deliveries. Once the only registration of
    a function for [data] is removed, no commit of any later run calls it,
    until it is registered again. *)
Theorem unregistering_stops_deliveries (eventSpecs : gmap string EventSpec)
    (p : proxy) (f : nat) (os : list op) :
  registered_once f p →
  Forall (λ o, touches f o = false) os →
  let gone := proxy_removeListener p "data" f in
  (f ∉ listeners_of gone.1 "data")
  ∧ frames_to f (gone.2 ++ (run eventSpecs gone.1 os).2) = []
  ∧ messageHistory (run eventSpecs gone.1 os).1
    = messageHistory (run eventSpecs p os).1.
Proof.
  intros Hf Hos gone.
  assert (filter (λ t, t = f) (listeners_of gone.1 "data") = []) as Hnone.
  { unfold gone. rewrite proxy_removeListener_unregisters, decide_True by done.
    by rewrite Hf. }
  split; [|split].
  - intros Hin. assert (f ∈ filter (λ t, t = f) (listeners_of gone.1 "data"))
      as Hin' by (by apply list_elem_of_filter).
    rewrite Hnone in Hin'. by apply elem_of_nil in Hin'.
  - rewrite frames_to_app, run_frames_none by done.
    unfold gone. by rewrite proxy_removeListener_frames_to.
  - destruct (run_same_but eventSpecs f (S f) os gone.1 p ltac:(lia)
                (proxy_removeListener_same_but p "data" f)) as [(Hh & _) _].
    done.
Qed.

Lemma unregistering_stops_deliveries_witness :
  registered_once 7 (proxy_on after_example_events "data" reconnecting).1
  ∧ frames_to 7
      (run example_specs
         (proxy_removeListener
            (proxy_on after_example_events "data" reconnecting).1 "data" 7).1
         [Emit "test" [JNull]; Commit "x"]).2 = [].
Proof.
  assert (registered_once 7
            (proxy_on after_example_events "data" reconnecting).1) as Hr.
  { reflexivity. }
  split; [exact Hr|].
  destruct (unregistering_stops_deliveries example_specs
              (proxy_on after_example_events "data" reconnecting).1 7
              [Emit "test" [JNull]; Commit "x"] Hr
              ltac:(repeat constructor)) as (_ & H & _).
  rewrite frames_to_app in H. by apply app_eq_nil in H as [_ H].
Defined.

(** ** Reconnecting *)

Lemma consistent_same (p q : proxy) :
  messageHistory q = messageHistory p →
  serverCurrentID q = serverCurrentID p →
  consistent p → consistent q.
Proof. intros Hh Hc (ss & ? & ?). exists ss. split; congruence. Qed.

Lemma proxy_on_first_session eventSpecs (p : proxy) (l : listener)
    (os : list op) :
  consistent p →
  filter (λ t, t = fn l) (listeners_of p "data") = [] →
  Forall (λ o, touches (fn l) o = false) os →
  (startEventId l ≤ Z.of_nat (length (messageHistory p)))%Z →
  (0 ≤ startEventId l)%Z →
  frames_to (fn l)
    ((proxy_on p "data" l).2 ++ (run eventSpecs (proxy_on p "data" l).1 os).2)
  = drop (Z.to_nat (startEventId l))
      (messageHistory (run eventSpecs (proxy_on p "data" l).1 os).1).
Proof.
  intros Hp Hfresh Hos Hle H0.
  assert (consistent (proxy_on p "data" l).1) as Hc
    by (by apply (consistent_same p)).
  assert (registered_once (fn l) (proxy_on p "data" l).1) as Honce.
  { unfold registered_once.
    by rewrite proxy_on_registers, Hfresh, decide_True. }
  rewrite frames_to_app, proxy_on_frames_to, decide_True by done.
  rewrite (run_frames_once eventSpecs (fn l) os _ Hc Honce Hos).
  destruct (run_extends eventSpecs os _ Hc) as [ext Hext].
  rewrite Hext. change (messageHistory (proxy_on p "data" l).1)
    with (messageHistory p).
  rewrite array_get_range, drop_app_length by done.
  by rewrite drop_app_le by lia.
Qed.

(** X9. Reconnecting is seamless. A listener without a token registers and
    stays for a first session, at the end of which the history has [k + 1]
    frames; it is unregistered and misses what is committed while it is
    away; a listener then registers with the decimal text of [k], the last
    identifier the first session saw. The first session was called with
    the whole history up to [k], nothing arrives while away, the second
    session is called with exactly the frames after [k], and both sessions
    together received the final history, each frame once and in order. *)
Theorem reconnecting_is_seamless (eventSpecs : gmap string EventSpec)
    (p : proxy) (l1 l2 : listener) (os1 os2 os3 : list op) (k : nat) :
  consistent p →
  fn l1 ∉ listeners_of p "data" →
  fn l2 ∉ listeners_of p "data" →
  own_lastEventId l1 = None →
  own_lastEventId l2 = Some (JString (pretty k)) →
  (Z.of_nat k < double_limit)%Z →
  Forall (λ o, touches (fn l1) o = false) (os1 ++ os2) →
  Forall (λ o, touches (fn l2) o = false) (os1 ++ os2 ++ os3) →
  length (messageHistory (run eventSpecs (proxy_on p "data" l1).1 os1).1)
    = S k →
  let first := proxy_on p "data" l1 in
  let session1 := run eventSpecs first.1 os1 in
  let gone := proxy_removeListener session1.1 "data" (fn l1) in
  let away := run eventSpecs gone.1 os2 in
  let back := proxy_on away.1 "data" l2 in
  let session2 := run eventSpecs back.1 os3 in
  frames_to (fn l1) (first.2 ++ session1.2) = messageHistory session1.1
  ∧ frames_to (fn l1) (gone.2 ++ away.2) = []
  ∧ frames_to (fn l2) (back.2 ++ session2.2)
    = drop (S k) (messageHistory session2.1)
  ∧ frames_to (fn l1) (first.2 ++ session1.2)
    ++ frames_to (fn l2) (back.2 ++ session2.2)
    = messageHistory session2.1.
Proof.
  intros Hp Hf1 Hf2 Hown1 Hown2 Hlim Hos1 Hos2 Hlen
    first session1 gone away back session2.
  apply Forall_app in Hos1 as [Hos1a Hos1b].
  apply Forall_app in Hos2 as [Hos2a Hos2].
  apply Forall_app in Hos2 as [Hos2b Hos2c].
  fold first in Hlen. fold session1 in Hlen.
  pose proof (not_registered_filter _ _ Hf1) as Hn1.
  pose proof (not_registered_filter _ _ Hf2) as Hn2.
  assert (startEventId l1 = 0%Z) as Hs1 by (by apply startEventId_absent).
  assert (startEventId l2 = Z.of_nat (S k)) as Hs2.
  { rewrite (startEventId_own l2 _ Hown2). simpl.
    rewrite <- pretty_Z_of_nat, parseInt10_pretty by lia. lia. }
  (* the first session *)
  assert (frames_to (fn l1) (first.2 ++ session1.2)
          = messageHistory session1.1) as HA.
  { unfold first, session1.
    rewrite proxy_on_first_session by (done || lia). by rewrite Hs1. }
  assert (consistent first.1) as Hc1 by (by apply (consistent_same p)).
  pose proof (run_consistent eventSpecs os1 first.1 Hc1) as Hcs1.
  fold session1 in Hcs1.
  (* unregistered and away *)
  destruct (proxy_removeListener_history session1.1 "data" (fn l1))
    as [Hgh Hgc]. fold gone in Hgh, Hgc.
  assert (consistent gone.1) as Hcg by (by apply (consistent_same session1.1)).
  assert (filter (λ t, t = fn l1) (listeners_of gone.1 "data") = []) as Hg1.
  { unfold gone, session1, first.
    rewrite proxy_removeListener_unregisters, decide_True by done.
    rewrite run_untouched, proxy_on_registers, Hn1, decide_True by done.
    done. }
  assert (frames_to (fn l1) (gone.2 ++ away.2) = []) as HB.
  { rewrite frames_to_app. unfold away.
    rewrite run_frames_none by done.
    unfold gone. by rewrite proxy_removeListener_frames_to. }
  destruct (run_extends eventSpecs os2 gone.1 Hcg) as [b Hb].
  fold away in Hb. rewrite Hgh in Hb.
  pose proof (run_consistent eventSpecs os2 gone.1 Hcg) as Hca.
  fold away in Hca.
  (* the second listener is not registered when it comes *)
  assert (filter (λ t, t = fn l2) (listeners_of away.1 "data") = []) as Hg2.
  { unfold away. rewrite run_untouched by done.
    unfold gone. rewrite proxy_removeListener_unregisters.
    unfold session1. rewrite run_untouched by done.
    unfold first. rewrite proxy_on_registers, Hn2.
    by destruct (decide (fn l1 = fn l2)). }
  assert (frames_to (fn l2) (back.2 ++ session2.2)
          = drop (S k) (messageHistory session2.1)) as HC.
  { unfold back, session2.
    rewrite proxy_on_first_session; rewrite ?Hs2, ?Hb, ?length_app; try done;
      try lia.
    by rewrite Nat2Z.id. }
  split; [done|]. split; [done|]. split; [done|].
  rewrite HA, HC.
  assert (consistent back.1) as Hcb by (by apply (consistent_same away.1)).
  destruct (run_extends eventSpecs os3 back.1 Hcb) as [c Hc].
  fold session2 in Hc.
  change (messageHistory back.1) with (messageHistory away.1) in Hc.
  rewrite Hc, Hb, <- (assoc_L (++)).
  by rewrite (drop_app_length' (messageHistory session1.1)).
Qed.

Lemma reconnecting_is_seamless_witness :
  consistent after_example_events
  ∧ own_lastEventId inheriting = None
  ∧ own_lastEventId returning = Some (JString (pretty 2))
  ∧ length
      (messageHistory
         (run example_specs
            (proxy_on after_example_events "data" inheriting).1
            [Commit "x"]).1) = 3
  ∧ (let first := proxy_on after_example_events "data" inheriting in
     let session1 := run example_specs first.1 [Commit "x"] in
     let gone := proxy_removeListener session1.1 "data" (fn inheriting) in
     let away := run example_specs gone.1 [Commit "y"] in
     let back := proxy_on away.1 "data" returning in
     let session2 := run example_specs back.1 [Commit "z"] in
     frames_to (fn inheriting) (first.2 ++ session1.2)
     ++ frames_to (fn returning) (back.2 ++ session2.2)
     = messageHistory session2.1).
Proof.
  assert (consistent after_example_events) as Hc.
  { exists example_frames. split; reflexivity. }
  assert (Z.of_nat 2 < double_limit)%Z as Hlim by (by vm_compute).
  split; [exact Hc|]. split; [reflexivity|]. split; [reflexivity|].
  split; [reflexivity|].
  apply (reconnecting_is_seamless example_specs after_example_events
           inheriting returning [Commit "x"] [Commit "y"] [Commit "z"] 2 Hc
           ltac:(vm_compute; apply not_elem_of_nil)
           ltac:(vm_compute; apply not_elem_of_nil)
           eq_refl eq_refl Hlim
           ltac:(repeat constructor) ltac:(repeat constructor) eq_refl).
Defined.

(** ** Joining late *)

(** X10. A late joiner catches up. Of two listeners without a token, the
    first registers, a run goes by, then the second registers, and another
    run goes by. The second is replayed what it missed, and from then on
    both are called with the same new frames: in the end each of them has
    received the final history, each frame once and in order. *)
Theorem late_joiner_catches_up (eventSpecs : gmap string EventSpec)
    (p : proxy) (l1 l2 : listener) (os1 os2 : list op) :
  consistent p →
  fn l1 ∉ listeners_of p "data" →
  fn l2 ∉ listeners_of p "data" →
  fn l1 ≠ fn l2 →
  own_lastEventId l1 = None →
  own_lastEventId l2 = None →
  Forall (λ o, touches (fn l1) o = false) (os1 ++ os2) →
  Forall (λ o, touches (fn l2) o = false) (os1 ++ os2) →
  let first := proxy_on p "data" l1 in
  let between := run eventSpecs first.1 os1 in
  let second := proxy_on between.1 "data" l2 in
  let final := run eventSpecs second.1 os2 in
  frames_to (fn l1) (first.2 ++ between.2 ++ second.2 ++ final.2)
    = messageHistory final.1
  ∧ frames_to (fn l2) (second.2 ++ final.2) = messageHistory final.1
  ∧ frames_to (fn l2) (first.2 ++ between.2) = [].
Proof.
  intros Hp Hf1 Hf2 Hne Hown1 Hown2 Hos1 Hos2 first between second final.
  pose proof (not_registered_filter _ _ Hf1) as Hn1.
  pose proof (not_registered_filter _ _ Hf2) as Hn2.
  pose proof (startEventId_absent l1 Hown1) as Hs1.
  pose proof (startEventId_absent l2 Hown2) as Hs2.
  apply Forall_app in Hos2 as [Hos2a Hos2b].
  assert (consistent first.1) as Hc1 by (by apply (consistent_same p)).
  pose proof (run_consistent eventSpecs os1 first.1 Hc1) as Hcb.
  fold between in Hcb.
  assert (filter (λ t, t = fn l2) (listeners_of between.1 "data") = [])
    as Hb2.
  { unfold between. rewrite run_untouched by done.
    unfold first. by rewrite proxy_on_registers, Hn2, decide_False. }
  split; [|split].
  - assert (Forall (λ o, touches (fn l1) o = false)
              (os1 ++ On "data" l2 :: os2)) as Hos.
    { apply Forall_app in Hos1 as [Ha Hb]. apply Forall_app. split; [done|].
      apply Forall_cons. split; [|done]. simpl.
      apply bool_decide_eq_false. intros [_ ?]. congruence. }
    pose proof (proxy_on_first_session eventSpecs p l1 _ Hp Hn1 Hos
                  ltac:(lia) ltac:(lia)) as H.
    rewrite run_app in H. cbn [fst snd run step] in H.
    fold first between second in H.
    destruct (proxy_on between.1 "data" l2) as [q c] eqn:E.
    subst second. cbn [fst snd] in *. fold final in H.
    destruct final as [q' c']. cbn [fst snd] in *.
    by rewrite Hs1 in H.
  - unfold second, final.
    rewrite proxy_on_first_session by (done || lia). by rewrite Hs2.
  - rewrite frames_to_app. unfold between.
    rewrite run_frames_none; [|by unfold first;
      rewrite proxy_on_registers, Hn2, decide_False|done].
    unfold first.
    by rewrite proxy_on_frames_to, decide_False by (intros [_ ?]; congruence).
Qed.

Lemma late_joiner_catches_up_witness :
  consistent after_example_events
  ∧ fn inheriting ≠ fn (without_lastEventId reconnecting)
  ∧ (let first := proxy_on after_example_events "data" inheriting in
     let between := run example_specs first.1 [Commit "x"] in
     let second :=
       proxy_on between.1 "data" (without_lastEventId reconnecting) in
     let final := run example_specs second.1 [Emit "test" [JBool true]] in
     frames_to (fn (without_lastEventId reconnecting)) (second.2 ++ final.2)
     = messageHistory final.1).
Proof.
  assert (consistent after_example_events) as Hc.
  { exists example_frames. split; reflexivity. }
  split; [exact Hc|]. split; [discriminate|].
  apply (late_joiner_catches_up example_specs after_example_events
           inheriting (without_lastEventId reconnecting)
           [Commit "x"] [Emit "test" [JBool true]] Hc
           ltac:(vm_compute; apply not_elem_of_nil)
           ltac:(vm_compute; apply not_elem_of_nil)
           ltac:(discriminate) eq_refl eq_refl
           ltac:(repeat constructor) ltac:(repeat constructor)).
Defined.
